(** * Hebrew palindrome finder: normalisation and scan

    A shallow embedding of [utils/hebrew.ts] and the properties of its
    specification.  The file comes in two versions; the specification
    follows the later one, with the reference patterns, one entry for each
    canonical form and a sorted result, which is embedded here as
    [normalizeHebrew], [isPalindrome] and [findPalindromes].  The earlier
    one is kept in the module [Earlier] for comparison.

    JavaScript strings are sequences of UTF-16 code units; every string
    operation the program uses ([replace] with a regular expression without
    the [u] flag, [substring], [length], [split], [trim], indexing) works on
    code units, and only the for-of loop of [normalizeHebrew] walks code
    points.  A string is therefore a [list Z] of code units.  The numbers
    [minLength] and [maxLength] are integers. *)

From Stdlib Require Import List ZArith Lia Bool Sorted Permutation.
Import ListNotations.
Open Scope Z_scope.

Definition codeUnit := Z.
Definition jsString := list codeUnit.

(** ** Character classes of the regular expressions *)

Definition inRange (lo hi c : codeUnit) : bool := (lo <=? c) && (c <=? hi).

(** The class of U+05D0 to U+05EA, the Hebrew letters alef to tav (the five
    final forms included). *)
Definition isHebrewLetter (c : codeUnit) : bool := inRange 0x05D0 0x05EA c.

(** The class of U+0591 to U+05C7: cantillation marks and vowel points. *)
Definition isNiqqud (c : codeUnit) : bool := inRange 0x0591 0x05C7 c.

(** The class that may open a reference: quotation mark U+0022, apostrophe
    U+0027, gershayim U+05F4, geresh U+05F3, opening parenthesis U+0028. *)
Definition isOpenQuote (c : codeUnit) : bool :=
  (c =? 0x22) || (c =? 0x27) || (c =? 0x05F4) || (c =? 0x05F3) || (c =? 0x28).

(** The class that may close a reference: the same marks, with the closing
    parenthesis U+0029. *)
Definition isCloseQuote (c : codeUnit) : bool :=
  (c =? 0x22) || (c =? 0x27) || (c =? 0x05F4) || (c =? 0x05F3) || (c =? 0x29).

(** Comma U+002C or colon U+003A. *)
Definition isRefSep (c : codeUnit) : bool := (c =? 0x2C) || (c =? 0x3A).

(** Opening parenthesis or opening square bracket U+005B. *)
Definition isOpenBracket (c : codeUnit) : bool := (c =? 0x28) || (c =? 0x5B).

(** Closing parenthesis or closing square bracket U+005D. *)
Definition isCloseBracket (c : codeUnit) : bool := (c =? 0x29) || (c =? 0x5D).

(** The class [\s], which is also the set removed by [String.prototype.trim]:
    WhiteSpace and LineTerminator of ECMAScript. *)
Definition isWhiteSpace (c : codeUnit) : bool :=
  inRange 0x09 0x0D c || (c =? 0x20) || (c =? 0xA0) || (c =? 0x1680)
  || inRange 0x2000 0x200A c || (c =? 0x2028) || (c =? 0x2029)
  || (c =? 0x202F) || (c =? 0x205F) || (c =? 0x3000) || (c =? 0xFEFF).

(** The class tested on [text[i]] by the scan: a Hebrew letter, or one of
    the marks that may open a reference. *)
Definition isStartChar (c : codeUnit) : bool :=
  isHebrewLetter c || (c =? 0x22) || (c =? 0x27) || (c =? 0x05F4)
  || (c =? 0x05F3) || (c =? 0x28).

(** ** A backtracking matcher for the regular expressions of the program

    Every regular expression of [hebrew.ts] is a concatenation of character
    classes, each under a greedy quantifier ([?], [+], [{1,3}] or none).
    [repeatMatcher] is the RepeatMatcher of ECMAScript for a one-character
    atom: take one more character when the upper bound allows it and the
    class accepts it, and fall back to the continuation when that fails and
    the lower bound is reached.  A match is reported as the number of code
    units it consumes. *)

Record atom : Type := mkAtom {
  cls : codeUnit -> bool;
  lo : nat;
  hi : option nat
}.

Definition canTake (h : option nat) : bool :=
  match h with
  | Some O => false
  | _ => true
  end.

Definition decr (h : option nat) : option nat :=
  match h with
  | Some n => Some (Nat.pred n)
  | None => None
  end.

Fixpoint repeatMatcher (p : codeUnit -> bool) (l : nat) (h : option nat)
    (k : jsString -> option nat) (s : jsString) : option nat :=
  match s with
  | c :: s' =>
      if canTake h && p c then
        match repeatMatcher p (Nat.pred l) (decr h) k s' with
        | Some n => Some (S n)
        | None => if Nat.eqb l 0 then k s else None
        end
      else if Nat.eqb l 0 then k s else None
  | [] => if Nat.eqb l 0 then k [] else None
  end.

Fixpoint matchAtoms (pat : list atom) : jsString -> option nat :=
  match pat with
  | [] => fun _ => Some O
  | a :: pat' => repeatMatcher (cls a) (lo a) (hi a) (matchAtoms pat')
  end.

(** [String.prototype.replace] with a global regular expression and a
    constant replacement: the leftmost match is replaced, the search resumes
    after it ([skip] counts the code units of the current match still to be
    dropped), and an empty match advances by one code unit. *)
Fixpoint replaceFrom (pat : list atom) (by_ : jsString) (skip : nat)
    (s : jsString) : jsString :=
  match s with
  | [] =>
      match skip, matchAtoms pat [] with
      | O, Some _ => by_
      | _, _ => []
      end
  | c :: s' =>
      match skip with
      | S k => replaceFrom pat by_ k s'
      | O =>
          match matchAtoms pat s with
          | Some (S n) => by_ ++ replaceFrom pat by_ n s'
          | Some O => by_ ++ c :: replaceFrom pat by_ O s'
          | None => c :: replaceFrom pat by_ O s'
          end
      end
  end.

Definition replace (pat : list atom) (by_ : jsString) (s : jsString) : jsString :=
  replaceFrom pat by_ O s.

Definition one (p : codeUnit -> bool) : atom := mkAtom p 1 (Some 1%nat).
Definition opt (p : codeUnit -> bool) : atom := mkAtom p 0 (Some 1%nat).
Definition plus (p : codeUnit -> bool) : atom := mkAtom p 1 None.
Definition upTo3 (p : codeUnit -> bool) : atom := mkAtom p 1 (Some 3%nat).

(** [refPattern]: an optional opening mark, one to three letters, a comma
    or colon, one to three letters, an optional closing mark. *)
Definition refPattern : list atom :=
  [opt isOpenQuote; upTo3 isHebrewLetter; one isRefSep; upTo3 isHebrewLetter;
   opt isCloseQuote].

(** [parenRefPattern]: an opening bracket, one to three letters, one or more
    white-space characters, one to three letters, a closing bracket. *)
Definition parenRefPattern : list atom :=
  [one isOpenBracket; upTo3 isHebrewLetter; plus isWhiteSpace;
   upTo3 isHebrewLetter; one isCloseBracket].

(** The pattern of the vowel removal: one mark of the niqqud class. *)
Definition niqqudPattern : list atom := [one isNiqqud].

(** ** [normalizeHebrew] *)

Definition isLeadSurrogate (c : codeUnit) : bool := inRange 0xD800 0xDBFF c.
Definition isTrailSurrogate (c : codeUnit) : bool := inRange 0xDC00 0xDFFF c.

(** The string iterator behind the for-of loop over [noVowels]: a lead
    surrogate followed by a trail surrogate is one [char] of two code units,
    everything else is a [char] of one code unit. *)
Fixpoint codePoints (s : jsString) : list jsString :=
  match s with
  | [] => []
  | c :: s' =>
      match s' with
      | d :: s'' =>
          if isLeadSurrogate c && isTrailSurrogate d
          then [c; d] :: codePoints s''
          else [c] :: codePoints s'
      | [] => [[c]]
      end
  end.

(** [sofitMap[char]]: the five final letters and their regular forms;
    [None] is [undefined]. *)
Definition sofitMap (char : jsString) : option jsString :=
  match char with
  | [c] =>
      if c =? 0x05DA then Some [0x05DB]
      else if c =? 0x05DD then Some [0x05DE]
      else if c =? 0x05DF then Some [0x05E0]
      else if c =? 0x05E3 then Some [0x05E4]
      else if c =? 0x05E5 then Some [0x05E6]
      else None
  | _ => None
  end.

(** One turn of the loop body: what is appended to [normalized]. *)
Definition appended (char : jsString) : jsString :=
  match sofitMap char with
  | Some r => r
  | None => if existsb isHebrewLetter char then char else []
  end.

Definition normalizeHebrew (text : jsString) : jsString :=
  let textWithoutRefs := replace refPattern [0x20] text in
  let textWithoutRefs := replace parenRefPattern [0x20] textWithoutRefs in
  let noVowels := replace niqqudPattern [] textWithoutRefs in
  fold_left (fun normalized char => normalized ++ appended char)
            (codePoints noVowels) [].

(** ** [isPalindrome] *)

Fixpoint strEq (a b : jsString) : bool :=
  match a, b with
  | [], [] => true
  | x :: a', y :: b' => (x =? y) && strEq a' b'
  | _, _ => false
  end.

Definition isPalindrome (str : jsString) : bool :=
  if (Z.of_nat (List.length str) <? 3) then false
  else
    let reversed := rev str in
    strEq str reversed.

(** ** [findPalindromes] *)

(** The objects pushed on [results]. *)
Record Match : Type := mkMatch {
  normalized : jsString;
  original : jsString;
  length : Z
}.

(** [s.substring(i, j)]: the arguments are swapped when [i > j], and clamped
    to the length of [s] (which [skipn] and [firstn] do by themselves). *)
Definition substring (s : jsString) (i j : nat) : jsString :=
  firstn (Nat.max i j - Nat.min i j) (skipn (Nat.min i j) s).

Fixpoint trimStart (s : jsString) : jsString :=
  match s with
  | [] => []
  | c :: s' => if isWhiteSpace c then trimStart s' else s
  end.

Definition trimEnd (s : jsString) : jsString := rev (trimStart (rev s)).

(** [s.trim()] *)
Definition trim (s : jsString) : jsString := trimEnd (trimStart s).

(** The body of the inner loop, for the values [js] of [j] still to come;
    [results] is the array the matches are pushed on.  Both [break]s end the
    loop with the array as it is. *)
Fixpoint innerLoop (text : jsString) (minLength maxLength : Z) (i : nat)
    (js : list nat) (results : list Match) : list Match :=
  match js with
  | [] => results
  | j :: js' =>
      let originalSub := substring text i j in
      if Z.of_nat (List.length originalSub) >? maxLength * 4 then results
      else
        let normalizedSub := normalizeHebrew originalSub in
        if Z.of_nat (List.length normalizedSub) >? maxLength then results
        else if (Z.of_nat (List.length normalizedSub) >=? minLength)
                && isPalindrome normalizedSub
        then innerLoop text minLength maxLength i js'
               (results ++ [mkMatch normalizedSub (trim originalSub)
                                    (Z.of_nat (List.length normalizedSub))])
        else innerLoop text minLength maxLength i js' results
  end.

(** The outer loop, for the values [starts] of [i] still to come.  [text[i]] is
    always defined there, since [i < text.length]. *)
Fixpoint outerLoop (text : jsString) (minLength maxLength : Z)
    (starts : list nat) (results : list Match) : list Match :=
  match starts with
  | [] => results
  | i :: starts' =>
      match nth_error text i with
      | Some c =>
          if negb (isStartChar c)
          then outerLoop text minLength maxLength starts' results
          else outerLoop text minLength maxLength starts'
                 (innerLoop text minLength maxLength i
                    (seq (S i) (List.length text - i)) results)
      | None => outerLoop text minLength maxLength starts' results
      end
  end.

(** The raw matches, in the order the scan meets them. *)
Definition scan (text : jsString) (minLength maxLength : Z) : list Match :=
  outerLoop text minLength maxLength (seq 0 (List.length text)) [].

(** The comparator of both sorts: [(a, b) => b.length - a.length]. *)
Definition compareFn (a b : Match) : Z := length b - length a.

(** [Array.prototype.sort] is stable, and [compareFn] is a consistent
    comparator, so that the result is the one stable sorted arrangement of
    the array, which insertion from the right computes: an element goes
    before the first element it need not follow. *)
Fixpoint insertSorted (x : Match) (l : list Match) : list Match :=
  match l with
  | [] => [x]
  | y :: l' => if compareFn x y <=? 0 then x :: l else y :: insertSorted x l'
  end.

Fixpoint sort (l : list Match) : list Match :=
  match l with
  | [] => []
  | x :: l' => insertSorted x (sort l')
  end.

(** A JavaScript [Map] with string keys: entries in insertion order; [set]
    on a key that is present replaces the value where the entry stands. *)
Definition jsMap := list (jsString * Match).

Fixpoint mapGet (m : jsMap) (key : jsString) : option Match :=
  match m with
  | [] => None
  | (k, v) :: m' => if strEq k key then Some v else mapGet m' key
  end.

Definition mapHas (m : jsMap) (key : jsString) : bool :=
  match mapGet m key with
  | Some _ => true
  | None => false
  end.

Fixpoint mapSet (m : jsMap) (key : jsString) (v : Match) : jsMap :=
  match m with
  | [] => [(key, v)]
  | (k, w) :: m' =>
      if strEq k key then (k, v) :: m' else (k, w) :: mapSet m' key v
  end.

Definition mapValues (m : jsMap) : list Match := map snd m.

(** The callback of [results.forEach]. *)
Definition dedupStep (uniqueMatches : jsMap) (res : Match) : jsMap :=
  let key := normalized res in
  if negb (mapHas uniqueMatches key) then mapSet uniqueMatches key res
  else
    match mapGet uniqueMatches key with
    | Some existing =>
        if Z.of_nat (List.length (original res))
           <? Z.of_nat (List.length (original existing))
        then mapSet uniqueMatches key res
        else uniqueMatches
    | None => uniqueMatches
    end.

Definition dedup (results : list Match) : jsMap :=
  fold_left dedupStep results [].

Definition findPalindromes (text : jsString) (minLength maxLength : Z)
    : list Match :=
  let results := scan text minLength maxLength in
  let results := sort results in
  let uniqueMatches := dedup results in
  sort (mapValues uniqueMatches).

(** ** The earlier version of the file *)

Module Earlier.

(** [normalizeHebrew] without the reference patterns. *)
Definition normalizeHebrew (text : jsString) : jsString :=
  let noVowels := replace niqqudPattern [] text in
  fold_left (fun normalized char => normalized ++ appended char)
            (codePoints noVowels) [].

(** The last code unit of a string, [originalSub[originalSub.length - 1]]. *)
Definition lastChar (s : jsString) : option codeUnit :=
  nth_error s (List.length s - 1).

Fixpoint innerLoop (text : jsString) (minLength maxLength : Z) (i : nat)
    (js : list nat) (results : list Match) : list Match :=
  match js with
  | [] => results
  | j :: js' =>
      let originalSub := substring text i j in
      let normalizedSub := normalizeHebrew originalSub in
      if Z.of_nat (List.length normalizedSub) >? maxLength then results
      else if (Z.of_nat (List.length normalizedSub) >=? minLength)
              && isPalindrome normalizedSub
      then
        match lastChar originalSub with
        | Some c =>
            if isHebrewLetter c
            then innerLoop text minLength maxLength i js'
                   (results ++ [mkMatch normalizedSub originalSub
                                  (Z.of_nat (List.length normalizedSub))])
            else innerLoop text minLength maxLength i js' results
        | None => innerLoop text minLength maxLength i js' results
        end
      else innerLoop text minLength maxLength i js' results
  end.

Fixpoint outerLoop (text : jsString) (minLength maxLength : Z)
    (starts : list nat) (results : list Match) : list Match :=
  match starts with
  | [] => results
  | i :: starts' =>
      match nth_error text i with
      | Some c =>
          if negb (isHebrewLetter c)
          then outerLoop text minLength maxLength starts' results
          else outerLoop text minLength maxLength starts'
                 (innerLoop text minLength maxLength i
                    (seq (S i) (List.length text - i)) results)
      | None => outerLoop text minLength maxLength starts' results
      end
  end.

(** The key of the map: the canonical form, a low line, the original. *)
Definition keyOf (res : Match) : jsString :=
  normalized res ++ [0x5F] ++ original res.

Definition dedupStep (uniqueMatches : jsMap) (res : Match) : jsMap :=
  let key := keyOf res in
  if negb (mapHas uniqueMatches key) then mapSet uniqueMatches key res
  else uniqueMatches.

Definition findPalindromes (text : jsString) (minLength maxLength : Z)
    : list Match :=
  let results :=
    outerLoop text minLength maxLength (seq 0 (List.length text)) [] in
  let uniqueMatches := fold_left dedupStep results [] in
  mapValues uniqueMatches.

End Earlier.

(** ** The search of [App.tsx]

    The component keeps its state in five cells; a handler is the state
    after its [set...] calls as a function of the state before them.
    [lookupSourceFor] and the calls of the remote service are left out: they
    wait for the network. *)

Module App.

Record Source : Type := mkSource {
  book : jsString;
  chapter : jsString;
  verse : jsString
}.

(** [LocalResult]: a match with its two optional fields. *)
Record LocalResult : Type := mkLocalResult {
  normalized : jsString;
  original : jsString;
  length : Z;
  source : option Source;
  isCheckingSource : option bool
}.

Inductive Tab : Type := search | discover.

(** The state cells; the discoveries are of any type [D]. *)
Record State (D : Type) : Type := mkState {
  inputText : jsString;
  results : list LocalResult;
  aiDiscoveries : list D;
  isLoading : bool;
  activeTab : Tab
}.

Arguments mkState {D}.
Arguments inputText {D}.
Arguments results {D}.
Arguments aiDiscoveries {D}.
Arguments isLoading {D}.
Arguments activeTab {D}.

(** The object [{ ...f, isCheckingSource: false }]. *)
Definition unchecked (f : Match) : LocalResult :=
  match f with
  | mkMatch n o l => mkLocalResult n o l None (Some false)
  end.

(** [handleSearch]: nothing happens when the trimmed input is the empty
    string. *)
Definition handleSearch {D} (st : State D) : State D :=
  match trim (inputText st) with
  | [] => st
  | _ :: _ =>
      let found := findPalindromes (inputText st) 3 60 in
      mkState (inputText st) (map unchecked found) (aiDiscoveries st)
              (isLoading st) search
  end.

Definition clearAll {D} (st : State D) : State D :=
  mkState [] [] [] (isLoading st) (activeTab st).

End App.

(** ** Vocabulary of the specification *)

Definition isFinalLetter (c : codeUnit) : bool :=
  (c =? 0x05DA) || (c =? 0x05DD) || (c =? 0x05DF) || (c =? 0x05E3)
  || (c =? 0x05E5).

(** The 22 letters of the alphabet in their regular form. *)
Definition isBaseLetter (c : codeUnit) : bool :=
  isHebrewLetter c && negb (isFinalLetter c).

Definition isDigit (c : codeUnit) : bool := inRange 0x30 0x39 c.

(** ASCII punctuation, and the Hebrew punctuation marks maqaf, paseq, sof
    pasuq, nun hafukha, geresh and gershayim. *)
Definition isPunctuation (c : codeUnit) : bool :=
  inRange 0x21 0x2F c || inRange 0x3A 0x40 c || inRange 0x5B 0x60 c
  || inRange 0x7B 0x7E c || (c =? 0x05BE) || (c =? 0x05C0) || (c =? 0x05C3)
  || (c =? 0x05C6) || (c =? 0x05F3) || (c =? 0x05F4).

(** The two reference-stripping passes of [normalizeHebrew]. *)
Definition stripRefs (text : jsString) : jsString :=
  replace parenRefPattern [0x20] (replace refPattern [0x20] text).

(** The three remaining passes, code unit by code unit: marks are dropped,
    final letters folded, and only letters kept. *)
Definition lettersOf (s : jsString) : jsString :=
  flat_map (fun c => appended [c]) (filter (fun c => negb (isNiqqud c)) s).

(** A sequence reads the same forward and backward. *)
Definition mirrored (s : jsString) : Prop := rev s = s.

(** A pattern is blocked on the strings of [Q] when it demands at least one
    character of a class that no character of [Q] belongs to. *)
Definition blocked (Q : codeUnit -> Prop) (pat : list atom) : Prop :=
  Exists (fun a => (1 <= lo a)%nat /\ forall c, Q c -> cls a c = false) pat.

Definition isSpace (c : codeUnit) : Prop := isWhiteSpace c = true.

(** A pattern whose matches are not changed by white space appended to the
    input: an atom either rejects white space, or is followed by a rest
    that cannot match inside white space. *)
Fixpoint spaceBlind (pat : list atom) : Prop :=
  match pat with
  | [] => True
  | a :: pat' =>
      spaceBlind pat'
      /\ ((forall c, isSpace c -> cls a c = false)
          \/ (forall t, Forall isSpace t -> matchAtoms pat' t = None))
  end.

(** The matcher never looks past the code unit [c]: every atom rejects it,
    but for a last atom that takes at most one code unit. *)
Fixpoint stopsAt (c : codeUnit) (pat : list atom) : Prop :=
  match pat with
  | [] => True
  | a :: pat' =>
      (cls a c = false /\ stopsAt c pat')
      \/ (hi a = Some 1%nat /\ pat' = [])
  end.

(** A match of [n] code units on [s] whose last code unit is of class [E]. *)
Definition endsIn (E : codeUnit -> bool) (s : jsString) (n : nat) : Prop :=
  exists pre c post,
    s = pre ++ c :: post /\ n = S (List.length pre) /\ E c = true.

(** The pattern matches nowhere in [s]. *)
Fixpoint noMatchIn (pat : list atom) (s : jsString) : bool :=
  match matchAtoms pat s with
  | Some _ => false
  | None =>
      match s with
      | [] => true
      | _ :: s' => noMatchIn pat s'
      end
  end.

(** Neither reference pattern matches anywhere in [s]. *)
Definition noReference (s : jsString) : Prop :=
  noMatchIn refPattern s = true /\ noMatchIn parenRefPattern s = true.

(** A code unit that can take part in no reference: neither a separator of
    [refPattern] nor an opening bracket of [parenRefPattern]. *)
Definition plainUnit (c : codeUnit) : Prop :=
  isRefSep c = false /\ isOpenBracket c = false.

(** The raw matches of canonical form [k], in the order of the list. *)
Definition group (k : jsString) (l : list Match) : list Match :=
  filter (fun r => strEq (normalized r) k) l.

Definition originalLength (m : Match) : Z :=
  Z.of_nat (List.length (original m)).

(** [m] is the representative of the group [g]: an element of [g] whose
    original text is strictly shorter than that of every element met before
    it, and no longer than that of any element met after it. *)
Definition representative (m : Match) (g : list Match) : Prop :=
  exists before after,
    g = before ++ m :: after
    /\ (forall r, In r before -> originalLength m < originalLength r)
    /\ (forall r, In r after -> originalLength m <= originalLength r).

(** Earlier entries are at least as long as later ones. *)
Definition descending (a b : Match) : Prop := length b <= length a.

(** The [length] field is the length of the canonical form. *)
Definition lengthOk (m : Match) : Prop :=
  length m = Z.of_nat (List.length (normalized m)).

(** What the deduplication loop maintains, [l] being the results it has
    gone through: the keys are distinct, every entry is filed under its own
    canonical form, and the entry of a key is the representative of the
    group of that key. *)
Definition dedupInv (m : jsMap) (l : list Match) : Prop :=
  NoDup (map fst m)
  /\ (forall k v, In (k, v) m -> normalized v = k)
  /\ (forall k,
        match mapGet m k with
        | Some v => representative v (group k l)
        | None => group k l = []
        end).

(** What holds of every match the scan records. *)
Definition rawOk (minLength maxLength : Z) (m : Match) : Prop :=
  minLength <= length m <= maxLength
  /\ lengthOk m
  /\ isPalindrome (normalized m) = true
  /\ normalizeHebrew (original m) = normalized m.

(** The length of the canonical form of [text[i..j]]. *)
Definition canonLen (text : jsString) (i j : nat) : Z :=
  Z.of_nat (List.length (normalizeHebrew (substring text i j))).

(** Neither [break] of the inner loop fires at [j]. *)
Definition noBreak (text : jsString) (maxLength : Z) (i j : nat) : Prop :=
  Z.of_nat (List.length (substring text i j)) <= maxLength * 4
  /\ canonLen text i j <= maxLength.

(** The match recorded for the span [text[i..j]]. *)
Definition matchOf (text : jsString) (i j : nat) : Match :=
  mkMatch (normalizeHebrew (substring text i j)) (trim (substring text i j))
          (canonLen text i j).


(** The canonical length of [text[i..j]] does not decrease as [j] grows. *)
Definition nonDecreasing (text : jsString) (i : nat) : Prop :=
  forall j j', (i < j <= j')%nat -> (j' <= List.length text)%nat ->
    canonLen text i j <= canonLen text i j'.

(** Once the canonical length has passed [maxLength], no later span of the
    same start has a canonical length in the range. *)
Definition abortSafe (text : jsString) (minLength maxLength : Z) (i : nat)
    : Prop :=
  forall j j', (i < j < j')%nat -> (j' <= List.length text)%nat ->
    canonLen text i j > maxLength ->
    ~ (minLength <= canonLen text i j' <= maxLength).

(** Sample letters and marks for the examples: alef, bet, gimel, dalet, he,
    vav, final kaf, the vowel point qamats, space and comma. *)
Definition alef : codeUnit := 0x05D0.
Definition bet : codeUnit := 0x05D1.
Definition gimel : codeUnit := 0x05D2.
Definition dalet : codeUnit := 0x05D3.
Definition he : codeUnit := 0x05D4.
Definition vav : codeUnit := 0x05D5.
Definition finalKaf : codeUnit := 0x05DA.
Definition qamats : codeUnit := 0x05B8.
Definition space : codeUnit := 0x20.
Definition comma : codeUnit := 0x2C.

(** Sample texts: an alef, eleven spaces, then bet and alef; and five
    letters, a comma, a letter, a space and an alef, where the reference
    pattern removes the three letters before the comma and the one after. *)
Definition longGap : jsString := alef :: repeat space 11 ++ [bet; alef].

Definition lateReference : jsString :=
  [alef; bet; gimel; dalet; he; comma; vav; space; alef].

(** The scan reaches the span [text[i..j]] and records it: [text[i]] is of
    the start class, no [break] fires up to [j], and the span passes the
    test. *)
Definition reached (text : jsString) (minLength maxLength : Z) (i j : nat)
    : Prop :=
  (exists c, nth_error text i = Some c /\ isStartChar c = true)
  /\ (i < j <= List.length text)%nat
  /\ (forall j', (i < j' <= j)%nat -> noBreak text maxLength i j')
  /\ minLength <= canonLen text i j
  /\ isPalindrome (normalizeHebrew (substring text i j)) = true.

(** The regular form of a final letter; other code units are left alone. *)
Definition foldFinal (c : codeUnit) : codeUnit :=
  match sofitMap [c] with
  | Some [b] => b
  | _ => c
  end.

(** The number of Hebrew letters of a string. *)
Definition letterCount (s : jsString) : nat :=
  List.length (filter isHebrewLetter s).

(** ** Vocabulary for the earlier version *)

(** The length of the canonical form of [text[i..j]] in the earlier
    version. *)
Definition earlierCanonLen (text : jsString) (i j : nat) : Z :=
  Z.of_nat (List.length (Earlier.normalizeHebrew (substring text i j))).

(** The match the earlier version records for the span [text[i..j]]. *)
Definition earlierMatchOf (text : jsString) (i j : nat) : Match :=
  mkMatch (Earlier.normalizeHebrew (substring text i j)) (substring text i j)
          (earlierCanonLen text i j).

(** The raw matches of the earlier version, in the order of the scan. *)
Definition earlierScan (text : jsString) (minLength maxLength : Z)
    : list Match :=
  Earlier.outerLoop text minLength maxLength (seq 0 (List.length text)) [].

(** The earlier scan records the span [text[i..j]]: it begins and ends with
    a Hebrew letter and passes the test. *)
Definition earlierReached (text : jsString) (minLength maxLength : Z)
    (i j : nat) : Prop :=
  (exists c, nth_error text i = Some c /\ isHebrewLetter c = true)
  /\ (i < j <= List.length text)%nat
  /\ minLength <= earlierCanonLen text i j <= maxLength
  /\ isPalindrome (Earlier.normalizeHebrew (substring text i j)) = true
  /\ (exists y, Earlier.lastChar (substring text i j) = Some y
                /\ isHebrewLetter y = true).

(** What the earlier deduplication loop maintains, [l] being the results it
    has gone through: distinct keys, every entry filed under its own key and
    taken from [l], and a key for every result of [l]. *)
Definition earlierInv (m : jsMap) (l : list Match) : Prop :=
  NoDup (map fst m)
  /\ (forall k v, In (k, v) m -> k = Earlier.keyOf v /\ In v l)
  /\ (forall r, In r l -> mapGet m (Earlier.keyOf r) <> None).

(** Sample states: one whose input is two spaces and which shows a result
    on the discoveries tab, and one whose input is alef bet alef and which
    shows nothing. *)
Definition blankState : App.State unit :=
  App.mkState [space; space]
    [App.unchecked (mkMatch [alef; bet; alef] [alef; bet; alef] 3)]
    [] false App.discover.

Definition typedState : App.State unit :=
  App.mkState [alef; bet; alef] [] [] false App.discover.

(** * Properties *)

(** ** Character classes *)

Ltac unfold_classes :=
  unfold isStartChar, isBaseLetter, isFinalLetter, isDigit, isPunctuation,
    isWhiteSpace, isOpenQuote, isCloseQuote, isRefSep, isOpenBracket,
    isCloseBracket, isNiqqud, isHebrewLetter, isLeadSurrogate,
    isTrailSurrogate, inRange in *.

Ltac bool_to_prop :=
  rewrite ?negb_true_iff, ?negb_false_iff in *;
  rewrite ?orb_true_iff, ?andb_true_iff, ?orb_false_iff, ?andb_false_iff in *;
  rewrite ?Z.eqb_eq, ?Z.eqb_neq, ?Z.leb_le, ?Z.leb_gt in *.

Ltac classes := intros; unfold_classes; bool_to_prop; lia.

Lemma letter_not_space c : isHebrewLetter c = true -> isWhiteSpace c = false.
Proof. classes. Qed.

Lemma letter_not_niqqud c : isHebrewLetter c = true -> isNiqqud c = false.
Proof. classes. Qed.

Lemma space_not_letter c : isWhiteSpace c = true -> isHebrewLetter c = false.
Proof. classes. Qed.

Lemma space_not_niqqud c : isWhiteSpace c = true -> isNiqqud c = false.
Proof. classes. Qed.

Lemma space_not_start c : isWhiteSpace c = true -> isStartChar c = false.
Proof. classes. Qed.

Lemma space_not_openQuote c : isWhiteSpace c = true -> isOpenQuote c = false.
Proof. classes. Qed.

Lemma space_not_closeQuote c : isWhiteSpace c = true -> isCloseQuote c = false.
Proof. classes. Qed.

Lemma space_not_sep c : isWhiteSpace c = true -> isRefSep c = false.
Proof. classes. Qed.

Lemma space_not_openBracket c :
  isWhiteSpace c = true -> isOpenBracket c = false.
Proof. classes. Qed.

Lemma space_not_closeBracket c :
  isWhiteSpace c = true -> isCloseBracket c = false.
Proof. classes. Qed.

Lemma letter_not_sep c : isHebrewLetter c = true -> isRefSep c = false.
Proof. classes. Qed.

Lemma letter_not_openBracket c :
  isHebrewLetter c = true -> isOpenBracket c = false.
Proof. classes. Qed.

(** ** Strings *)

Lemma strEq_eq a : forall b, strEq a b = true <-> a = b.
Proof.
  induction a as [|x a IH]; intros [|y b]; simpl; split; intro H;
    try reflexivity; try discriminate.
  - apply andb_true_iff in H as [Hx Hab].
    apply Z.eqb_eq in Hx. apply IH in Hab. congruence.
  - injection H as -> ->. rewrite Z.eqb_refl. simpl. now apply IH.
Qed.

Lemma strEq_refl a : strEq a a = true.
Proof. now apply strEq_eq. Qed.

Lemma strEq_neq a b : strEq a b = false <-> a <> b.
Proof.
  split.
  - intros H E. apply strEq_eq in E. congruence.
  - intro N. destruct (strEq a b) eqn:E; [|reflexivity].
    apply strEq_eq in E. contradiction.
Qed.

(** ** The passes of [normalizeHebrew] *)

Lemma replace_niqqud s :
  replace niqqudPattern [] s = filter (fun c => negb (isNiqqud c)) s.
Proof.
  unfold replace.
  induction s as [|c s IH]; [reflexivity|].
  cbn [replaceFrom niqqudPattern matchAtoms one cls lo hi repeatMatcher
       canTake decr Nat.pred Nat.eqb andb filter].
  destruct (isNiqqud c); cbn [negb].
  - destruct s; cbn [canTake andb Nat.eqb app]; exact IH.
  - now rewrite IH.
Qed.

Lemma appended_pair c d :
  isLeadSurrogate c = true -> isTrailSurrogate d = true ->
  appended [c; d] = [] /\ appended [c] = [] /\ appended [d] = [].
Proof.
  intros Hc Hd. unfold appended, sofitMap. cbn [existsb].
  assert (isHebrewLetter c = false) as -> by classes.
  assert (isHebrewLetter d = false) as -> by classes.
  assert ((c =? 0x05DA) = false) as -> by classes.
  assert ((c =? 0x05DD) = false) as -> by classes.
  assert ((c =? 0x05DF) = false) as -> by classes.
  assert ((c =? 0x05E3) = false) as -> by classes.
  assert ((c =? 0x05E5) = false) as -> by classes.
  assert ((d =? 0x05DA) = false) as -> by classes.
  assert ((d =? 0x05DD) = false) as -> by classes.
  assert ((d =? 0x05DF) = false) as -> by classes.
  assert ((d =? 0x05E3) = false) as -> by classes.
  assert ((d =? 0x05E5) = false) as -> by classes.
  now repeat split.
Qed.

(** Walking code points or code units makes no difference to the loop: a
    surrogate pair is appended neither as a pair nor unit by unit. *)
Lemma codePoints_units s :
  flat_map appended (codePoints s) = flat_map (fun c => appended [c]) s.
Proof.
  enough (H : forall n s, (List.length s <= n)%nat ->
            flat_map appended (codePoints s)
            = flat_map (fun c => appended [c]) s)
    by (apply (H (List.length s)); lia).
  clear s. induction n as [|n IH]; intros [|c [|d s]] Hn; simpl in Hn;
    try reflexivity; try lia.
  cbn [codePoints].
  destruct (isLeadSurrogate c && isTrailSurrogate d) eqn:E.
  - apply andb_true_iff in E as [Hc Hd].
    destruct (appended_pair c d Hc Hd) as (E2 & Ec & Ed).
    cbn [flat_map]. rewrite E2, Ec, Ed. cbn [app].
    apply IH. lia.
  - cbn [flat_map]. f_equal. apply (IH (d :: s)). simpl. lia.
Qed.

Lemma loop_flat_map (chars : list jsString) : forall acc,
  fold_left (fun normalized char => normalized ++ appended char) chars acc
  = acc ++ flat_map appended chars.
Proof.
  induction chars as [|ch chars IH]; intro acc; simpl.
  - now rewrite app_nil_r.
  - rewrite IH. now rewrite <- app_assoc.
Qed.

Lemma normalizeHebrew_passes text :
  normalizeHebrew text = lettersOf (stripRefs text).
Proof.
  unfold normalizeHebrew, lettersOf, stripRefs.
  rewrite loop_flat_map, codePoints_units, replace_niqqud. reflexivity.
Qed.

Lemma appended_unit c :
  appended [c] = [] \/ exists b, appended [c] = [b] /\ isBaseLetter b = true.
Proof.
  unfold appended, sofitMap. cbn [existsb].
  repeat match goal with
  | |- context [if ?x =? ?y then _ else _] => destruct (Z.eqb_spec x y)
  end; try (right; eexists; split; [reflexivity | reflexivity]).
  rewrite orb_false_r.
  destruct (isHebrewLetter c) eqn:E; [right | now left].
  exists c. split; [reflexivity|]. classes.
Qed.

Lemma appended_base c : isBaseLetter c = true -> appended [c] = [c].
Proof.
  intro H. unfold appended, sofitMap. cbn [existsb].
  assert ((c =? 0x05DA) = false) as -> by classes.
  assert ((c =? 0x05DD) = false) as -> by classes.
  assert ((c =? 0x05DF) = false) as -> by classes.
  assert ((c =? 0x05E3) = false) as -> by classes.
  assert ((c =? 0x05E5) = false) as -> by classes.
  assert (isHebrewLetter c = true) as -> by classes.
  reflexivity.
Qed.

Lemma lettersOf_base s : Forall (fun c => isBaseLetter c = true) (lettersOf s).
Proof.
  unfold lettersOf.
  induction (filter (fun c => negb (isNiqqud c)) s) as [|c l IH]; simpl.
  - constructor.
  - apply Forall_app. split; [|exact IH].
    destruct (appended_unit c) as [-> | (b & -> & Hb)]; repeat constructor.
    exact Hb.
Qed.

Lemma lettersOf_app a b : lettersOf (a ++ b) = lettersOf a ++ lettersOf b.
Proof. unfold lettersOf. now rewrite filter_app, flat_map_app. Qed.

Lemma lettersOf_fixed s :
  Forall (fun c => isBaseLetter c = true) s -> lettersOf s = s.
Proof.
  unfold lettersOf. induction 1 as [|c s Hc _ IH]; [reflexivity|].
  cbn [filter].
  assert (isNiqqud c = false) as -> by classes.
  cbn [negb flat_map]. rewrite IH, appended_base by exact Hc. reflexivity.
Qed.

(** ** The matcher *)

Section Matcher.

Variable Q : codeUnit -> Prop.

Lemma repeatMatcher_stuck p k s : forall l h,
  (forall t, Forall Q t -> k t = None) -> Forall Q s ->
  repeatMatcher p l h k s = None.
Proof.
  induction s as [|c s IH]; intros l h Hk Hs; cbn [repeatMatcher].
  - rewrite (Hk [] Hs). now destruct (Nat.eqb l 0).
  - inversion Hs as [|? ? Hc Hs']; subst.
    rewrite (IH _ _ Hk Hs'), (Hk _ Hs).
    destruct (canTake h && p c); now destruct (Nat.eqb l 0).
Qed.

Lemma repeatMatcher_refused p l h k s :
  (1 <= l)%nat -> (forall c, Q c -> p c = false) -> Forall Q s ->
  repeatMatcher p l h k s = None.
Proof.
  intros Hl Hp Hs.
  assert (E : Nat.eqb l 0 = false) by (apply Nat.eqb_neq; lia).
  destruct Hs as [|c s Hc Hs]; cbn [repeatMatcher]; rewrite E.
  - reflexivity.
  - rewrite (Hp c Hc), andb_false_r. reflexivity.
Qed.

Lemma matchAtoms_blocked pat :
  blocked Q pat -> forall s, Forall Q s -> matchAtoms pat s = None.
Proof.
  induction 1 as [a pat [Hl Hp] | a pat _ IH]; intros s Hs; cbn [matchAtoms].
  - now apply repeatMatcher_refused.
  - now apply repeatMatcher_stuck.
Qed.

Lemma replaceFrom_blocked pat by_ s :
  blocked Q pat -> Forall Q s -> replaceFrom pat by_ O s = s.
Proof.
  intros Hb Hs. induction Hs as [|c s Hc Hs IH]; cbn [replaceFrom].
  - now rewrite (matchAtoms_blocked pat Hb []).
  - rewrite (matchAtoms_blocked pat Hb (c :: s)) by now constructor.
    now rewrite IH.
Qed.

End Matcher.

(** A match never runs past the end of the input. *)
Lemma repeatMatcher_length p k s : forall l h n,
  (forall t m, k t = Some m -> (m <= List.length t)%nat) ->
  repeatMatcher p l h k s = Some n -> (n <= List.length s)%nat.
Proof.
  induction s as [|c s IH]; intros l h n Hk; cbn [repeatMatcher].
  - destruct (Nat.eqb l 0); [apply Hk | discriminate].
  - destruct (canTake h && p c).
    + destruct (repeatMatcher p (Nat.pred l) (decr h) k s) as [m|] eqn:E.
      * intros [= <-]. apply IH in E; [simpl; lia | exact Hk].
      * destruct (Nat.eqb l 0); [apply Hk | discriminate].
    + destruct (Nat.eqb l 0); [apply Hk | discriminate].
Qed.

Lemma matchAtoms_length pat : forall s n,
  matchAtoms pat s = Some n -> (n <= List.length s)%nat.
Proof.
  induction pat as [|a pat IH]; intros s n; cbn [matchAtoms].
  - intros [= <-]. lia.
  - apply repeatMatcher_length. exact IH.
Qed.

(** White space after the input is not seen by a continuation that does not
    see it, whether the class rejects white space or only feeds a
    continuation that fails on it. *)
Lemma repeatMatcher_app_space p k k' ws s : forall l h,
  Forall isSpace ws ->
  (forall c, isSpace c -> p c = false)
  \/ (forall t, Forall isSpace t -> k t = None) ->
  (forall t, k (t ++ ws) = k' t) ->
  repeatMatcher p l h k (s ++ ws) = repeatMatcher p l h k' s.
Proof.
  intros l h Hws Hp Hk. revert l h.
  induction s as [|c s IH]; intros l h.
  - cbn [app]. destruct Hp as [Hp | Hp].
    + cbn [repeatMatcher]. rewrite <- (Hk []). cbn [app].
      destruct Hws as [|w ws Hw Hws]; cbn [repeatMatcher]; [reflexivity|].
      now rewrite (Hp w Hw), andb_false_r.
    + rewrite (repeatMatcher_stuck isSpace p k ws l h Hp Hws).
      cbn [repeatMatcher]. rewrite <- (Hk []). cbn [app].
      rewrite (Hp ws Hws). now destruct (Nat.eqb l 0).
  - cbn [app repeatMatcher]. rewrite IH.
    change (c :: s ++ ws) with ((c :: s) ++ ws). now rewrite Hk.
Qed.

Lemma matchAtoms_app_space pat ws :
  spaceBlind pat -> Forall isSpace ws ->
  forall s, matchAtoms pat (s ++ ws) = matchAtoms pat s.
Proof.
  intros Hpat Hws. induction pat as [|a pat IH]; intro s; cbn [matchAtoms].
  - reflexivity.
  - destruct Hpat as [Hpat Ha].
    apply repeatMatcher_app_space; [exact Hws | exact Ha | ].
    intro t. now apply IH.
Qed.

Lemma replaceFrom_spaces pat by_ ws :
  (forall t, Forall isSpace t -> matchAtoms pat t = None) ->
  Forall isSpace ws -> replaceFrom pat by_ O ws = ws.
Proof.
  intros Hpat Hws. induction Hws as [|c s Hc Hs IH]; cbn [replaceFrom].
  - now rewrite (Hpat []).
  - rewrite (Hpat (c :: s)) by now constructor.
    now rewrite IH.
Qed.

Lemma replaceFrom_app_space pat by_ ws :
  spaceBlind pat ->
  (forall t, Forall isSpace t -> matchAtoms pat t = None) ->
  Forall isSpace ws ->
  forall s skip, (skip <= List.length s)%nat ->
  replaceFrom pat by_ skip (s ++ ws) = replaceFrom pat by_ skip s ++ ws.
Proof.
  intros Hblind Hnone Hws.
  induction s as [|c s IH]; intros skip Hskip.
  - simpl in Hskip. assert (skip = O) as -> by lia.
    cbn [app]. rewrite (replaceFrom_spaces pat by_ ws Hnone Hws).
    cbn [replaceFrom]. now rewrite (Hnone []).
  - destruct skip as [|k].
    + cbn [replaceFrom app].
      change (c :: s ++ ws) with ((c :: s) ++ ws).
      rewrite (matchAtoms_app_space pat ws Hblind Hws).
      destruct (matchAtoms pat (c :: s)) as [[|n]|] eqn:E.
      * rewrite IH by lia. now rewrite <- app_assoc.
      * apply matchAtoms_length in E. simpl in E.
        rewrite IH by lia. now rewrite <- app_assoc.
      * now rewrite IH by lia.
    + cbn [replaceFrom app]. simpl in Hskip. apply IH. lia.
Qed.

Lemma replaceFrom_space_app pat by_ s ws :
  (forall c t, isSpace c -> matchAtoms pat (c :: t) = None) ->
  Forall isSpace ws ->
  replaceFrom pat by_ O (ws ++ s) = ws ++ replaceFrom pat by_ O s.
Proof.
  intros Hhead Hws. induction Hws as [|c ws Hc Hws IH]; [reflexivity|].
  cbn [app replaceFrom]. rewrite (Hhead c _ Hc). now rewrite IH.
Qed.

(** A match on a string is still found, perhaps longer, when the string
    is extended. *)
Lemma repeatMatcher_extends p k k' q s : forall l h n,
  (forall t m, k t = Some m -> exists m', k' (t ++ q) = Some m') ->
  repeatMatcher p l h k s = Some n ->
  exists n', repeatMatcher p l h k' (s ++ q) = Some n'.
Proof.
  intros l h n Hk. revert l h n.
  assert (Hq : forall l h m, (if Nat.eqb l 0 then k [] else None) = Some m ->
            exists n', repeatMatcher p l h k' q = Some n').
  { intros l h m H. destruct (Nat.eqb l 0) eqn:El; [|discriminate].
    destruct (Hk [] m H) as (m' & Hm'). cbn [app] in Hm'.
    destruct q as [|c q]; cbn [repeatMatcher]; rewrite El; [eauto|].
    destruct (canTake h && p c); [|eauto].
    destruct (repeatMatcher p (Nat.pred l) (decr h) k' q); eauto. }
  induction s as [|y s IH]; intros l h n; cbn [app repeatMatcher].
  - apply Hq.
  - destruct (canTake h && p y).
    + destruct (repeatMatcher p (Nat.pred l) (decr h) k s) as [m|] eqn:M.
      * intros _. destruct (IH _ _ _ M) as (m' & ->). eauto.
      * destruct (Nat.eqb l 0); [|discriminate]. intro H.
        destruct (repeatMatcher p (Nat.pred l) (decr h) k' (s ++ q));
          [eauto|].
        exact (Hk (y :: s) n H).
    + destruct (Nat.eqb l 0); [|discriminate]. intro H.
      exact (Hk (y :: s) n H).
Qed.

Lemma matchAtoms_extends pat q : forall s n,
  matchAtoms pat s = Some n -> exists n', matchAtoms pat (s ++ q) = Some n'.
Proof.
  induction pat as [|a pat IH]; intros s n; cbn [matchAtoms]; [eauto|].
  apply repeatMatcher_extends. exact IH.
Qed.

Lemma noMatchIn_prefix pat q s :
  noMatchIn pat (s ++ q) = true -> noMatchIn pat s = true.
Proof.
  induction s as [|y s IH]; cbn [app].
  - intro H. cbn [noMatchIn].
    destruct (matchAtoms pat []) as [n|] eqn:M; [|reflexivity].
    destruct (matchAtoms_extends pat q [] n M) as (n' & M').
    cbn [app] in M'. destruct q; cbn [noMatchIn] in H; now rewrite M' in H.
  - cbn [noMatchIn].
    destruct (matchAtoms pat (y :: s)) as [n|] eqn:M.
    + destruct (matchAtoms_extends pat q (y :: s) n M) as (n' & M').
      cbn [app] in M'. now rewrite M'.
    + destruct (matchAtoms pat (y :: s ++ q)); [discriminate | exact IH].
Qed.

Lemma replaceFrom_noMatchIn pat by_ s :
  noMatchIn pat s = true -> replaceFrom pat by_ O s = s.
Proof.
  induction s as [|y s IH]; cbn [noMatchIn replaceFrom].
  - now destruct (matchAtoms pat []).
  - destruct (matchAtoms pat (y :: s)); [discriminate|].
    intro H. now rewrite IH.
Qed.

(** ** The two reference patterns *)

Lemma refPattern_plain : blocked plainUnit refPattern.
Proof.
  unfold refPattern. do 2 apply Exists_cons_tl. apply Exists_cons_hd.
  split; [simpl; lia | now intros c [H _]].
Qed.

Lemma parenRefPattern_plain : blocked plainUnit parenRefPattern.
Proof.
  unfold parenRefPattern. apply Exists_cons_hd.
  split; [simpl; lia | now intros c [_ H]].
Qed.

Lemma refPattern_spaces : blocked isSpace refPattern.
Proof.
  unfold refPattern. apply Exists_cons_tl, Exists_cons_hd.
  split; [simpl; lia | exact space_not_letter].
Qed.

Lemma parenRefPattern_spaces : blocked isSpace parenRefPattern.
Proof.
  unfold parenRefPattern. apply Exists_cons_hd.
  split; [simpl; lia | exact space_not_openBracket].
Qed.

Lemma refPattern_spaceBlind : spaceBlind refPattern.
Proof.
  unfold refPattern. cbn [spaceBlind one opt upTo3 cls].
  repeat split; try exact I; left.
  - exact space_not_closeQuote.
  - exact space_not_letter.
  - exact space_not_sep.
  - exact space_not_letter.
  - exact space_not_openQuote.
Qed.

Lemma parenRefPattern_spaceBlind : spaceBlind parenRefPattern.
Proof.
  unfold parenRefPattern. cbn [spaceBlind one plus upTo3 cls].
  repeat split; try exact I.
  - left. exact space_not_closeBracket.
  - left. exact space_not_letter.
  - right. apply matchAtoms_blocked. apply Exists_cons_hd.
    split; [simpl; lia | exact space_not_letter].
  - left. exact space_not_letter.
  - left. exact space_not_openBracket.
Qed.

Lemma refPattern_head c t :
  isOpenQuote c = false -> isHebrewLetter c = false ->
  matchAtoms refPattern (c :: t) = None.
Proof.
  intros Hq Hl. unfold refPattern.
  cbn [matchAtoms opt upTo3 cls lo hi repeatMatcher canTake Nat.eqb].
  now rewrite Hq, Hl.
Qed.

Lemma parenRefPattern_head c t :
  isOpenBracket c = false -> matchAtoms parenRefPattern (c :: t) = None.
Proof.
  intro Hb. unfold parenRefPattern.
  cbn [matchAtoms one cls lo hi repeatMatcher canTake Nat.eqb].
  now rewrite Hb.
Qed.

Lemma refPattern_head_space c t :
  isSpace c -> matchAtoms refPattern (c :: t) = None.
Proof.
  intro Hc. apply refPattern_head;
    [now apply space_not_openQuote | now apply space_not_letter].
Qed.

Lemma parenRefPattern_head_space c t :
  isSpace c -> matchAtoms parenRefPattern (c :: t) = None.
Proof.
  intro Hc. apply parenRefPattern_head. now apply space_not_openBracket.
Qed.

(** Text without separators and opening brackets holds no reference. *)
Lemma stripRefs_plain s : Forall plainUnit s -> stripRefs s = s.
Proof.
  intro H. unfold stripRefs, replace.
  rewrite (replaceFrom_blocked plainUnit refPattern _ s refPattern_plain H).
  exact (replaceFrom_blocked plainUnit parenRefPattern _ s
           parenRefPattern_plain H).
Qed.

Lemma stripRefs_noReference s : noReference s -> stripRefs s = s.
Proof.
  intros [H1 H2]. unfold stripRefs, replace.
  rewrite (replaceFrom_noMatchIn refPattern _ s H1).
  exact (replaceFrom_noMatchIn parenRefPattern _ s H2).
Qed.

Lemma noReference_prefix s q : noReference (s ++ q) -> noReference s.
Proof.
  intros [H1 H2]. split; eapply noMatchIn_prefix; eassumption.
Qed.

(** White space around a span is left where it is by both passes. *)
Lemma stripRefs_spaces ws1 s ws2 :
  Forall isSpace ws1 -> Forall isSpace ws2 ->
  stripRefs (ws1 ++ s ++ ws2) = ws1 ++ stripRefs s ++ ws2.
Proof.
  intros H1 H2. unfold stripRefs, replace.
  rewrite (replaceFrom_space_app refPattern _ _ ws1 refPattern_head_space H1).
  rewrite (replaceFrom_app_space refPattern _ ws2 refPattern_spaceBlind
             (matchAtoms_blocked isSpace _ refPattern_spaces) H2 s O)
    by lia.
  rewrite (replaceFrom_space_app parenRefPattern _ _ ws1
             parenRefPattern_head_space H1).
  rewrite (replaceFrom_app_space parenRefPattern _ ws2
             parenRefPattern_spaceBlind
             (matchAtoms_blocked isSpace _ parenRefPattern_spaces) H2 _ O)
    by lia.
  reflexivity.
Qed.

Lemma lettersOf_spaces ws : Forall isSpace ws -> lettersOf ws = [].
Proof.
  unfold lettersOf. induction 1 as [|c ws Hc _ IH]; [reflexivity|].
  cbn [filter]. rewrite (space_not_niqqud c Hc). cbn [negb flat_map].
  rewrite IH, app_nil_r.
  destruct (appended_unit c) as [E | (b & E & Hb)]; [exact E|].
  exfalso. unfold appended, sofitMap in E. cbn [existsb] in E.
  pose proof (space_not_letter c Hc) as Hl. rewrite Hl in E.
  unfold isSpace in Hc.
  repeat match type of E with
  | context [if ?x =? ?y then _ else _] =>
      destruct (Z.eqb_spec x y); [subst c; discriminate Hc|]
  end.
  discriminate E.
Qed.

(** ** [trim] *)

Lemma trimStart_split s :
  exists ws, Forall isSpace ws /\ s = ws ++ trimStart s.
Proof.
  induction s as [|c s (ws & Hws & E)].
  - exists []. now split.
  - cbn [trimStart]. destruct (isWhiteSpace c) eqn:Hc.
    + exists (c :: ws). split; [now constructor | simpl; now f_equal].
    + exists []. now split.
Qed.

Lemma trim_split s :
  exists ws1 ws2,
    Forall isSpace ws1 /\ Forall isSpace ws2 /\ s = ws1 ++ trim s ++ ws2.
Proof.
  destruct (trimStart_split s) as (ws1 & H1 & E1).
  destruct (trimStart_split (rev (trimStart s))) as (ws & H2 & E2).
  exists ws1, (rev ws). split; [exact H1|]. split.
  - apply Forall_rev. exact H2.
  - unfold trim, trimEnd. rewrite <- rev_app_distr, <- E2, rev_involutive.
    exact E1.
Qed.

(** Trimming a span does not change what it normalises to. *)
Lemma normalizeHebrew_trim s : normalizeHebrew (trim s) = normalizeHebrew s.
Proof.
  destruct (trim_split s) as (ws1 & ws2 & H1 & H2 & E).
  rewrite E at 2. rewrite !normalizeHebrew_passes.
  rewrite (stripRefs_spaces ws1 (trim s) ws2 H1 H2).
  rewrite !lettersOf_app, (lettersOf_spaces ws1 H1), (lettersOf_spaces ws2 H2).
  now rewrite app_nil_r.
Qed.

(** ** Spans that start with a character outside the start class *)

Lemma repeatMatcher_exhausted p l t :
  repeatMatcher p l (Some O) (fun _ => Some O) t
  = if Nat.eqb l 0 then Some O else None.
Proof. destruct t; reflexivity. Qed.

Lemma repeatMatcher_first_only p l y t t' :
  repeatMatcher p l (Some 1%nat) (fun _ => Some O) (y :: t)
  = repeatMatcher p l (Some 1%nat) (fun _ => Some O) (y :: t').
Proof.
  cbn [repeatMatcher canTake decr Nat.pred andb].
  now rewrite !repeatMatcher_exhausted.
Qed.

Lemma repeatMatcher_stop p k k' c x x' a : forall l h,
  p c = false ->
  (forall t, k (t ++ c :: x) = k' (t ++ c :: x')) ->
  repeatMatcher p l h k (a ++ c :: x) = repeatMatcher p l h k' (a ++ c :: x').
Proof.
  intros l h Hc Hk. revert l h.
  induction a as [|y a IH]; intros l h; cbn [app repeatMatcher].
  - rewrite Hc, andb_false_r. pose proof (Hk []) as Hnil.
    cbn [app] in Hnil. now rewrite Hnil.
  - rewrite IH.
    change (y :: a ++ c :: x) with ((y :: a) ++ c :: x).
    change (y :: a ++ c :: x') with ((y :: a) ++ c :: x').
    now rewrite Hk.
Qed.

Lemma matchAtoms_stop c pat :
  stopsAt c pat ->
  forall a x x', matchAtoms pat (a ++ c :: x) = matchAtoms pat (a ++ c :: x').
Proof.
  induction pat as [|a0 pat IH]; intros Hstop a x x'; cbn [matchAtoms];
    [reflexivity|].
  destruct Hstop as [[Hc Hpat] | [Hhi ->]].
  - apply repeatMatcher_stop; [exact Hc|]. intro t. now apply IH.
  - rewrite Hhi. cbn [matchAtoms].
    destruct a as [|y a]; apply repeatMatcher_first_only.
Qed.

Lemma matchAtoms_stop_head c pat x x' :
  stopsAt c pat -> matchAtoms pat (c :: x) = matchAtoms pat (c :: x').
Proof. intro H. exact (matchAtoms_stop c pat H [] x x'). Qed.

Lemma matchAtoms_stop_cons c pat y a x x' :
  stopsAt c pat ->
  matchAtoms pat (y :: a ++ c :: x) = matchAtoms pat (y :: a ++ c :: x').
Proof. intro H. exact (matchAtoms_stop c pat H (y :: a) x x'). Qed.

(** When a code unit [c] that stops the matcher comes out of a replacement
    by a space, it stands in the input, the output after it is the
    replacement of the input after it, and the output before it does not
    depend on the input after it. *)
Lemma replaceFrom_cut pat c :
  stopsAt c pat -> c <> 0x20 ->
  forall rest skip u1 u2,
    replaceFrom pat [0x20] skip rest = u1 ++ c :: u2 ->
    exists r1 r2,
      rest = r1 ++ c :: r2
      /\ forall x', replaceFrom pat [0x20] skip (r1 ++ c :: x')
                    = u1 ++ c :: replaceFrom pat [0x20] O x'.
Proof.
  intros Hstop Hc.
  induction rest as [|y rest IH]; intros skip u1 u2 E.
  - exfalso. cbn [replaceFrom] in E.
    destruct skip, (matchAtoms pat []); destruct u1 as [|z [|z' u1]];
      try discriminate E; injection E as E _; congruence.
  - destruct skip as [|k].
    + cbn [replaceFrom] in E.
      destruct (matchAtoms pat (y :: rest)) as [[|n]|] eqn:M.
      * destruct u1 as [|z u1]; [injection E as E _; congruence|].
        injection E as <- E.
        destruct u1 as [|z u1]; injection E as -> E.
        -- exists [], rest. split; [reflexivity|]. intro x'.
           cbn [app replaceFrom].
           rewrite (matchAtoms_stop_head c pat x' rest Hstop).
           now rewrite M.
        -- destruct (IH O u1 u2 E) as (r1 & r2 & -> & Hx).
           exists (z :: r1), r2. split; [reflexivity|]. intro x'.
           cbn [app replaceFrom].
           rewrite (matchAtoms_stop_cons c pat z r1 x' r2 Hstop), M.
           cbn [app]. now rewrite Hx.
      * destruct u1 as [|z u1]; [injection E as E _; congruence|].
        injection E as <- E.
        destruct (IH n u1 u2 E) as (r1 & r2 & -> & Hx).
        exists (y :: r1), r2. split; [reflexivity|]. intro x'.
        cbn [app replaceFrom].
        rewrite (matchAtoms_stop_cons c pat y r1 x' r2 Hstop), M.
        cbn [app]. now rewrite Hx.
      * destruct u1 as [|z u1]; injection E as -> E.
        -- exists [], rest. split; [reflexivity|]. intro x'.
           cbn [app replaceFrom].
           rewrite (matchAtoms_stop_head c pat x' rest Hstop).
           now rewrite M.
        -- destruct (IH O u1 u2 E) as (r1 & r2 & -> & Hx).
           exists (z :: r1), r2. split; [reflexivity|]. intro x'.
           cbn [app replaceFrom].
           rewrite (matchAtoms_stop_cons c pat z r1 x' r2 Hstop), M.
           now rewrite Hx.
    + cbn [replaceFrom] in E.
      destruct (IH k u1 u2 E) as (r1 & r2 & -> & Hx).
      exists (y :: r1), r2. split; [reflexivity|]. intro x'.
      cbn [app replaceFrom]. apply Hx.
Qed.

Lemma repeatMatcher_ends E p k s : forall l h n,
  (forall t m, k t = Some m -> endsIn E t m) ->
  repeatMatcher p l h k s = Some n -> endsIn E s n.
Proof.
  induction s as [|y s IH]; intros l h n Hk; cbn [repeatMatcher].
  - destruct (Nat.eqb l 0); [apply Hk | discriminate].
  - destruct (canTake h && p y).
    + destruct (repeatMatcher p (Nat.pred l) (decr h) k s) as [m|] eqn:M.
      * intros [= <-].
        destruct (IH _ _ _ Hk M) as (pre & c & post & -> & -> & Hc).
        exists (y :: pre), c, post. now repeat split.
      * destruct (Nat.eqb l 0); [apply Hk | discriminate].
    + destruct (Nat.eqb l 0); [apply Hk | discriminate].
Qed.

Lemma parenRefPattern_ends s n :
  matchAtoms parenRefPattern s = Some n -> endsIn isCloseBracket s n.
Proof.
  unfold parenRefPattern. cbn [matchAtoms].
  do 4 (apply repeatMatcher_ends; intros ? ?).
  destruct t2 as [|c post]; cbn [one cls lo hi repeatMatcher canTake decr
                                 Nat.pred Nat.eqb andb]; [discriminate|].
  destruct (isCloseBracket c) eqn:Hc; [|discriminate].
  rewrite repeatMatcher_exhausted. cbn [Nat.eqb]. intros [= <-].
  exists [], c, post. now repeat split.
Qed.

Lemma replaceFrom_skip pat by_ u : forall n,
  (n <= List.length u)%nat ->
  replaceFrom pat by_ n u = replaceFrom pat by_ O (skipn n u).
Proof.
  induction u as [|y u IH]; intros [|n] Hn; try reflexivity.
  - simpl in Hn. lia.
  - cbn [replaceFrom skipn]. apply IH. simpl in Hn. lia.
Qed.

Lemma refPattern_stopsAt c : isCloseBracket c = true -> stopsAt c refPattern.
Proof.
  intro Hc. unfold refPattern. cbn [stopsAt opt upTo3 one cls hi].
  left. split; [classes|]. left. split; [classes|].
  left. split; [classes|]. left. split; [classes|].
  right. now split.
Qed.

Lemma parenRefPattern_stopsAt c :
  isCloseBracket c = true -> stopsAt c parenRefPattern.
Proof.
  intro Hc. unfold parenRefPattern. cbn [stopsAt plus upTo3 one cls hi].
  left. split; [classes|]. left. split; [classes|].
  left. split; [classes|]. left. split; [classes|].
  right. now split.
Qed.

Lemma appended_nonletter c : isHebrewLetter c = false -> appended [c] = [].
Proof.
  intro Hl. unfold appended, sofitMap. cbn [existsb]. rewrite Hl.
  assert ((c =? 0x05DA) = false) as -> by classes.
  assert ((c =? 0x05DD) = false) as -> by classes.
  assert ((c =? 0x05DF) = false) as -> by classes.
  assert ((c =? 0x05E3) = false) as -> by classes.
  assert ((c =? 0x05E5) = false) as -> by classes.
  reflexivity.
Qed.

Lemma lettersOf_nonletter c v :
  isHebrewLetter c = false -> lettersOf (c :: v) = lettersOf v.
Proof.
  intro Hl. unfold lettersOf. cbn [filter].
  destruct (isNiqqud c); cbn [negb flat_map]; [reflexivity|].
  now rewrite (appended_nonletter c Hl).
Qed.

Lemma skipn_past {A} (u1 : list A) c x :
  skipn (S (List.length u1)) (u1 ++ c :: x) = x.
Proof. induction u1 as [|y u1 IH]; [reflexivity | exact IH]. Qed.

(** A span whose first character is outside the start class and opens a
    match of [parenRefPattern] (once [refPattern] has been replaced): the
    match ends on a closing bracket of the span, and whatever follows that
    bracket, the span normalises to what follows normalises to. *)
Lemma head_dropped_with_reference c0 rest m :
  isStartChar c0 = false ->
  matchAtoms parenRefPattern (c0 :: replace refPattern [0x20] rest) = Some m ->
  exists r1 c r2,
    rest = r1 ++ c :: r2
    /\ forall x',
         matchAtoms parenRefPattern
           (c0 :: replace refPattern [0x20] (r1 ++ c :: x')) = Some m
         /\ normalizeHebrew (c0 :: r1 ++ c :: x') = normalizeHebrew x'.
Proof.
  intros Hstart M.
  destruct (parenRefPattern_ends _ _ M) as (pre & c & post & E & -> & Hc).
  destruct pre as [|z u1].
  { exfalso. cbn [app] in E. injection E as -> _.
    rewrite parenRefPattern_head in M; [discriminate | classes]. }
  cbn [app] in E. injection E as <- E.
  assert (Hsp : c <> 0x20) by classes.
  destruct (replaceFrom_cut refPattern c (refPattern_stopsAt c Hc) Hsp
              rest O u1 post E) as (r1 & r2 & -> & Hx).
  exists r1, c, r2. split; [reflexivity|]. intro x'.
  assert (M' : matchAtoms parenRefPattern
                 (c0 :: replace refPattern [0x20] (r1 ++ c :: x')) = Some
                 (S (List.length (c0 :: u1)))).
  { unfold replace. rewrite Hx.
    rewrite (matchAtoms_stop_cons c parenRefPattern c0 u1 _ post
               (parenRefPattern_stopsAt c Hc)).
    rewrite <- E. exact M. }
  split; [exact M'|].
  rewrite !normalizeHebrew_passes. unfold stripRefs.
  assert (Hhead : replace refPattern [0x20] (c0 :: r1 ++ c :: x')
                  = c0 :: replace refPattern [0x20] (r1 ++ c :: x')).
  { unfold replace. cbn [replaceFrom].
    rewrite refPattern_head; [reflexivity | classes | classes]. }
  rewrite Hhead. unfold replace at 1. cbn [replaceFrom].
  rewrite M'. cbn [List.length].
  unfold replace at 1. rewrite Hx.
  rewrite replaceFrom_skip by (rewrite length_app; simpl; lia).
  rewrite skipn_past. cbn [app].
  apply lettersOf_nonletter. reflexivity.
Qed.

Lemma head_dropped c0 rest :
  isStartChar c0 = false ->
  matchAtoms parenRefPattern (c0 :: replace refPattern [0x20] rest) = None ->
  normalizeHebrew (c0 :: rest) = normalizeHebrew rest.
Proof.
  intros Hstart M. rewrite !normalizeHebrew_passes. unfold stripRefs.
  assert (Hhead : replace refPattern [0x20] (c0 :: rest)
                  = c0 :: replace refPattern [0x20] rest).
  { unfold replace. cbn [replaceFrom].
    rewrite refPattern_head; [reflexivity | classes | classes]. }
  rewrite Hhead. unfold replace at 1. cbn [replaceFrom]. rewrite M.
  apply lettersOf_nonletter. classes.
Qed.

(** After a first character outside the start class, a span normalises as
    one of its own later parts does, and so do its prefixes that reach that
    part. *)
Lemma head_skipped c0 rest :
  isStartChar c0 = false ->
  exists a b,
    rest = a ++ b
    /\ forall b' b'', b = b' ++ b'' ->
         normalizeHebrew (c0 :: a ++ b') = normalizeHebrew b'.
Proof.
  intro Hstart.
  destruct (matchAtoms parenRefPattern
              (c0 :: replace refPattern [0x20] rest)) as [m|] eqn:M.
  - destruct (head_dropped_with_reference c0 rest m Hstart M)
      as (r1 & c & r2 & -> & Hx).
    exists (r1 ++ [c]), r2. split; [now rewrite <- app_assoc|].
    intros b' b'' _. rewrite <- app_assoc. apply Hx.
  - exists [], rest. split; [reflexivity|].
    intros b' b'' ->. cbn [app].
    destruct (matchAtoms parenRefPattern
                (c0 :: replace refPattern [0x20] b')) as [m|] eqn:M'.
    + exfalso.
      destruct (head_dropped_with_reference c0 b' m Hstart M')
        as (r1 & c & r2 & -> & Hx).
      destruct (Hx (r2 ++ b'')) as [M'' _].
      rewrite <- app_assoc in M. cbn [app] in M. congruence.
    + now apply head_dropped.
Qed.

(** ** The sort *)

Lemma insertSorted_perm x l : Permutation (insertSorted x l) (x :: l).
Proof.
  induction l as [|y l IH]; cbn [insertSorted]; [reflexivity|].
  destruct (compareFn x y <=? 0); [reflexivity|].
  rewrite IH. apply perm_swap.
Qed.

Lemma sort_perm l : Permutation (sort l) l.
Proof.
  induction l as [|x l IH]; cbn [sort]; [reflexivity|].
  rewrite insertSorted_perm. now constructor.
Qed.

Lemma sort_In l m : In m (sort l) <-> In m l.
Proof.
  split; apply Permutation_in; [|symmetry]; apply sort_perm.
Qed.

Lemma insertSorted_sorted x l :
  Sorted descending l -> Sorted descending (insertSorted x l).
Proof.
  induction 1 as [|y l Hl IH Hy]; cbn [insertSorted].
  - repeat constructor.
  - destruct (Z.leb_spec (compareFn x y) 0) as [Hc | Hc].
    + constructor; [now constructor|]. constructor.
      unfold descending, compareFn in *. lia.
    + constructor; [exact IH|].
      destruct l as [|z l]; cbn [insertSorted].
      * constructor. unfold descending, compareFn in *. lia.
      * destruct (compareFn x z <=? 0); constructor.
        -- unfold descending, compareFn in *. lia.
        -- now inversion Hy.
Qed.

Lemma sort_sorted l : StronglySorted descending (sort l).
Proof.
  apply Sorted_StronglySorted.
  - intros a b c. unfold descending. lia.
  - induction l as [|x l IH]; cbn [sort]; [constructor|].
    now apply insertSorted_sorted.
Qed.

Lemma StronglySorted_nth (l : list Match) :
  StronglySorted descending l ->
  forall i j a b, (i < j)%nat ->
    nth_error l i = Some a -> nth_error l j = Some b -> descending a b.
Proof.
  induction 1 as [|x l Hl IH Hx]; intros i j a b Hij Ha Hb.
  - now destruct i.
  - destruct j as [|j]; [lia|]. cbn [nth_error] in Hb.
    destruct i as [|i]; cbn [nth_error] in Ha.
    + injection Ha as <-. rewrite Forall_forall in Hx.
      apply Hx. eapply nth_error_In. exact Hb.
    + apply (IH i j); [lia | exact Ha | exact Hb].
Qed.

(** The sort is stable: the entries of one length keep their order. *)
Lemma insertSorted_stable n x l :
  filter (fun r => length r =? n) (insertSorted x l)
  = filter (fun r => length r =? n) (x :: l).
Proof.
  induction l as [|y l IH]; cbn [insertSorted]; [reflexivity|].
  destruct (Z.leb_spec (compareFn x y) 0) as [Hc | Hc]; [reflexivity|].
  cbn [filter] in *. rewrite IH.
  unfold compareFn in Hc.
  destruct (Z.eqb_spec (length x) n), (Z.eqb_spec (length y) n);
    try reflexivity.
  lia.
Qed.

Lemma sort_stable n l :
  filter (fun r => length r =? n) (sort l)
  = filter (fun r => length r =? n) l.
Proof.
  induction l as [|x l IH]; cbn [sort]; [reflexivity|].
  rewrite insertSorted_stable. cbn [filter]. now rewrite IH.
Qed.

Lemma group_by_length k l :
  Forall lengthOk l ->
  group k l
  = group k (filter (fun r => length r =? Z.of_nat (List.length k)) l).
Proof.
  unfold group. induction 1 as [|x l Hx _ IH]; [reflexivity|].
  cbn [filter]. destruct (strEq (normalized x) k) eqn:E.
  - assert (Hn : (length x =? Z.of_nat (List.length k)) = true).
    { apply strEq_eq in E. unfold lengthOk in Hx.
      rewrite Hx, E. apply Z.eqb_refl. }
    rewrite Hn. cbn [filter]. rewrite E. now rewrite IH.
  - destruct (length x =? Z.of_nat (List.length k)); cbn [filter];
      rewrite ?E; exact IH.
Qed.

Lemma sort_lengthOk l : Forall lengthOk l -> Forall lengthOk (sort l).
Proof.
  rewrite !Forall_forall. intros H m Hm. apply H. now apply sort_In.
Qed.

Lemma sort_group k l : Forall lengthOk l -> group k (sort l) = group k l.
Proof.
  intro H.
  rewrite (group_by_length k (sort l)) by now apply sort_lengthOk.
  rewrite sort_stable. symmetry. now apply group_by_length.
Qed.

(** ** The map *)

Lemma mapGet_In m k v : mapGet m k = Some v -> In (k, v) m.
Proof.
  induction m as [|[k0 v0] m IH]; cbn [mapGet]; [discriminate|].
  destruct (strEq k0 k) eqn:E.
  - intros [= <-]. apply strEq_eq in E. subst. now left.
  - intro H. right. now apply IH.
Qed.

Lemma mapGet_None m k : mapGet m k = None <-> ~ In k (map fst m).
Proof.
  induction m as [|[k0 v0] m IH]; cbn [mapGet map fst In].
  - tauto.
  - destruct (strEq k0 k) eqn:E.
    + apply strEq_eq in E. split; [discriminate | tauto].
    + apply strEq_neq in E. rewrite IH. tauto.
Qed.

Lemma mapGet_NoDup m k v :
  NoDup (map fst m) -> In (k, v) m -> mapGet m k = Some v.
Proof.
  induction m as [|[k0 v0] m IH]; cbn [mapGet map fst]; [contradiction|].
  intros Hnd [E | Hin]; inversion Hnd as [|? ? Hk0 Hm]; subst.
  - injection E as -> ->. now rewrite strEq_refl.
  - destruct (strEq k0 k) eqn:E; [|now apply IH].
    apply strEq_eq in E. subst. exfalso. apply Hk0.
    now apply (in_map fst) in Hin.
Qed.

Lemma mapSet_same m k v : mapGet (mapSet m k v) k = Some v.
Proof.
  induction m as [|[k0 v0] m IH]; cbn [mapSet mapGet].
  - now rewrite strEq_refl.
  - destruct (strEq k0 k) eqn:E; cbn [mapGet]; rewrite E; [reflexivity|].
    exact IH.
Qed.

Lemma mapSet_other m k v k' :
  k' <> k -> mapGet (mapSet m k v) k' = mapGet m k'.
Proof.
  intro N. induction m as [|[k0 v0] m IH]; cbn [mapSet mapGet].
  - destruct (strEq k k') eqn:E; [|reflexivity].
    apply strEq_eq in E. congruence.
  - destruct (strEq k0 k) eqn:E; cbn [mapGet].
    + apply strEq_eq in E. subst k0.
      destruct (strEq k k') eqn:E'; [|reflexivity].
      apply strEq_eq in E'. congruence.
    + now rewrite IH.
Qed.

Lemma mapSet_keys m k v :
  map fst (mapSet m k v)
  = if mapHas m k then map fst m else map fst m ++ [k].
Proof.
  unfold mapHas. induction m as [|[k0 v0] m IH]; cbn [mapSet mapGet map fst].
  - reflexivity.
  - destruct (strEq k0 k) eqn:E; cbn [map fst]; [reflexivity|].
    rewrite IH. now destruct (mapGet m k).
Qed.

Lemma mapSet_In m k v k' v' :
  In (k', v') (mapSet m k v) -> (k' = k /\ v' = v) \/ In (k', v') m.
Proof.
  induction m as [|[k0 v0] m IH]; cbn [mapSet].
  - intros [[= <- <-] | []]. now left.
  - destruct (strEq k0 k) eqn:E.
    + apply strEq_eq in E. subst k0.
      intros [[= <- <-] | H]; [now left | right; now right].
    + intros [H | H]; [right; now left|].
      destruct (IH H) as [H' | H']; [now left | right; now right].
Qed.

(** ** The deduplication loop *)

Lemma group_app k l1 l2 : group k (l1 ++ l2) = group k l1 ++ group k l2.
Proof. apply filter_app. Qed.

Lemma group_In k l m : In m (group k l) -> In m l /\ normalized m = k.
Proof.
  unfold group. rewrite filter_In. intros [H E]. split; [exact H|].
  now apply strEq_eq.
Qed.

Lemma representative_In m g : representative m g -> In m g.
Proof.
  intros (b & a & -> & _). apply in_or_app. right. now left.
Qed.

Lemma dedupStep_inv m l x :
  dedupInv m l -> dedupInv (dedupStep m x) (l ++ [x]).
Proof.
  intros (Hnd & Hkey & Hrep).
  assert (Hother : forall k, k <> normalized x ->
            group k (l ++ [x]) = group k l).
  { intros k N. rewrite group_app. unfold group at 2. cbn [filter].
    destruct (strEq (normalized x) k) eqn:E.
    - apply strEq_eq in E. congruence.
    - apply app_nil_r. }
  assert (Hsame : group (normalized x) (l ++ [x])
                  = group (normalized x) l ++ [x]).
  { rewrite group_app. unfold group at 2. cbn [filter].
    now rewrite strEq_refl. }
  assert (Hset : forall k v, In (k, v) (mapSet m (normalized x) x) ->
                   normalized v = k).
  { intros k v H. apply mapSet_In in H as [[-> ->] | H]; [reflexivity|].
    now apply Hkey. }
  unfold dedupStep, mapHas.
  pose proof (Hrep (normalized x)) as Hx.
  destruct (mapGet m (normalized x)) as [existing|] eqn:G; cbn [negb].
  - fold (originalLength x). fold (originalLength existing).
    destruct (Z.ltb_spec (originalLength x) (originalLength existing))
      as [Hlt | Hge].
    + (* the new match is strictly shorter: it takes the entry *)
      split; [|split; [exact Hset|]].
      * rewrite mapSet_keys. unfold mapHas. now rewrite G.
      * intro k. destruct (list_eq_dec Z.eq_dec k (normalized x)) as [-> | N].
        -- rewrite mapSet_same, Hsame.
           destruct Hx as (b & a & Hg & Hb & Ha).
           exists (group (normalized x) l), []. split; [reflexivity|].
           split; [|intros r []].
           intros r Hr. rewrite Hg in Hr.
           apply in_app_or in Hr as [Hr | [<- | Hr]].
           ++ specialize (Hb r Hr). lia.
           ++ exact Hlt.
           ++ specialize (Ha r Hr). lia.
        -- rewrite (mapSet_other _ _ _ _ N), (Hother k N). apply Hrep.
    + (* the entry stays *)
      split; [exact Hnd|]. split; [exact Hkey|].
      intro k. destruct (list_eq_dec Z.eq_dec k (normalized x)) as [-> | N].
      * rewrite G, Hsame.
        destruct Hx as (b & a & Hg & Hb & Ha).
        exists b, (a ++ [x]). split.
        -- rewrite Hg, <- app_assoc. reflexivity.
        -- split; [exact Hb|].
           intros r Hr. apply in_app_or in Hr as [Hr | [<- | []]].
           ++ now apply Ha.
           ++ exact Hge.
      * rewrite (Hother k N). apply Hrep.
  - (* a new canonical form *)
    split; [|split; [exact Hset|]].
    + rewrite mapSet_keys. unfold mapHas. rewrite G.
      apply NoDup_app_remove_l with (l := []). cbn [app].
      apply Permutation_NoDup with (l := normalized x :: map fst m).
      * apply Permutation_cons_append.
      * constructor; [|exact Hnd]. now apply mapGet_None.
    + intro k. destruct (list_eq_dec Z.eq_dec k (normalized x)) as [-> | N].
      * rewrite mapSet_same, Hsame, Hx.
        exists [], []. split; [reflexivity|]. split; intros r [].
      * rewrite (mapSet_other _ _ _ _ N), (Hother k N). apply Hrep.
Qed.

Lemma fold_dedupStep_inv l : forall m l0,
  dedupInv m l0 -> dedupInv (fold_left dedupStep l m) (l0 ++ l).
Proof.
  induction l as [|x l IH]; intros m l0 H; cbn [fold_left].
  - now rewrite app_nil_r.
  - replace (l0 ++ x :: l) with ((l0 ++ [x]) ++ l)
      by now rewrite <- app_assoc.
    apply IH. now apply dedupStep_inv.
Qed.

Lemma dedup_inv l : dedupInv (dedup l) l.
Proof.
  apply (fold_dedupStep_inv l [] []).
  split; [constructor|]. split; [intros k v []|]. reflexivity.
Qed.

Lemma values_keys (m : jsMap) :
  (forall k v, In (k, v) m -> normalized v = k) ->
  map normalized (mapValues m) = map fst m.
Proof.
  unfold mapValues. induction m as [|[k v] m IH]; intro H; [reflexivity|].
  cbn [map fst snd]. f_equal.
  - apply H. now left.
  - apply IH. intros k' v' Hin. apply H. now right.
Qed.

Lemma group_values (m : jsMap) k :
  NoDup (map fst m) ->
  (forall k v, In (k, v) m -> normalized v = k) ->
  group k (mapValues m)
  = match mapGet m k with
    | Some v => [v]
    | None => []
    end.
Proof.
  unfold mapValues, group.
  induction m as [|[k0 v0] m IH]; intros Hnd Hkey; [reflexivity|].
  cbn [map fst snd filter mapGet] in *.
  inversion Hnd as [|? ? Hk0 Hm]; subst.
  assert (E0 : normalized v0 = k0) by (apply Hkey; now left).
  assert (Hkey' : forall k v, In (k, v) m -> normalized v = k)
    by (intros k' v' Hin; apply Hkey; now right).
  rewrite E0. destruct (strEq k0 k) eqn:E.
  - apply strEq_eq in E. f_equal.
    specialize (IH Hm Hkey').
    destruct (mapGet m k) eqn:G; [|exact IH].
    apply mapGet_In in G. exfalso. apply Hk0. rewrite E.
    now apply (in_map fst) in G.
  - now apply IH.
Qed.

Lemma dedup_sound l v : In v (mapValues (dedup l)) -> In v l.
Proof.
  destruct (dedup_inv l) as (Hnd & Hkey & Hrep).
  unfold mapValues. rewrite in_map_iff. intros ([k v'] & E & Hin).
  cbn [snd] in E. subst v'.
  specialize (Hrep k). rewrite (mapGet_NoDup _ _ _ Hnd Hin) in Hrep.
  apply representative_In, group_In in Hrep. tauto.
Qed.

Lemma dedup_complete l r :
  In r l ->
  exists v, In v (mapValues (dedup l)) /\ normalized v = normalized r.
Proof.
  intro Hr. destruct (dedup_inv l) as (Hnd & Hkey & Hrep).
  specialize (Hrep (normalized r)).
  destruct (mapGet (dedup l) (normalized r)) as [v|] eqn:G.
  - apply mapGet_In in G. exists v. split; [|now apply Hkey].
    unfold mapValues. now apply (in_map snd) in G.
  - exfalso.
    assert (Hin : In r (group (normalized r) l)).
    { unfold group. apply filter_In. split; [exact Hr | apply strEq_refl]. }
    rewrite Hrep in Hin. exact Hin.
Qed.

(** ** The palindrome test *)

Lemma isPalindrome_true s :
  isPalindrome s = true <-> mirrored s /\ (3 <= List.length s)%nat.
Proof.
  unfold isPalindrome, mirrored.
  destruct (Z.ltb_spec (Z.of_nat (List.length s)) 3) as [Hlt | Hge].
  - split; [discriminate | lia].
  - rewrite strEq_eq. split.
    + intro E. split; [now symmetry | lia].
    + intros [E _]. now symmetry.
Qed.

Lemma isPalindrome_floor s minLength :
  minLength <= 3 ->
  (Z.of_nat (List.length s) >=? minLength) && isPalindrome s
  = (Z.of_nat (List.length s) >=? 3) && isPalindrome s.
Proof.
  intro Hmin. destruct (isPalindrome s) eqn:E.
  - apply isPalindrome_true in E as [_ Hlen].
    rewrite !andb_true_r.
    destruct (Z.geb_spec (Z.of_nat (List.length s)) minLength),
             (Z.geb_spec (Z.of_nat (List.length s)) 3); try reflexivity; lia.
  - now rewrite !andb_false_r.
Qed.

(** ** The scan *)

Lemma innerLoop_ok text minLength maxLength i js : forall results,
  Forall (rawOk minLength maxLength) results ->
  Forall (rawOk minLength maxLength)
         (innerLoop text minLength maxLength i js results).
Proof.
  induction js as [|j js IH]; intros results H; cbn [innerLoop];
    [exact H|].
  destruct (_ >? maxLength * 4); [exact H|].
  destruct (Z.gtb_spec
              (Z.of_nat (List.length (normalizeHebrew (substring text i j))))
              maxLength) as [Hgt | Hle]; [exact H|].
  destruct (_ && _) eqn:E; [|now apply IH].
  apply IH. apply Forall_app. split; [exact H|].
  apply andb_true_iff in E as [Hmin Hpal].
  constructor; [|constructor].
  unfold rawOk, lengthOk. cbn [normalized original length].
  repeat split; try assumption.
  - apply Z.geb_le in Hmin. exact Hmin.
  - apply normalizeHebrew_trim.
Qed.

Lemma outerLoop_ok text minLength maxLength starts : forall results,
  Forall (rawOk minLength maxLength) results ->
  Forall (rawOk minLength maxLength)
         (outerLoop text minLength maxLength starts results).
Proof.
  induction starts as [|i starts IH]; intros results H; cbn [outerLoop];
    [exact H|].
  destruct (nth_error text i) as [c|]; [|now apply IH].
  destruct (negb (isStartChar c)); apply IH; [exact H|].
  now apply innerLoop_ok.
Qed.

Lemma scan_ok text minLength maxLength :
  Forall (rawOk minLength maxLength) (scan text minLength maxLength).
Proof. apply outerLoop_ok. constructor. Qed.

Lemma innerLoop_keeps text minLength maxLength i m js : forall results,
  In m results -> In m (innerLoop text minLength maxLength i js results).
Proof.
  induction js as [|j js IH]; intros results H; cbn [innerLoop];
    [exact H|].
  destruct (_ >? maxLength * 4); [exact H|].
  destruct (_ >? maxLength); [exact H|].
  destruct (_ && _); apply IH; [|exact H].
  apply in_or_app. now left.
Qed.

Lemma outerLoop_keeps text minLength maxLength m starts : forall results,
  In m results -> In m (outerLoop text minLength maxLength starts results).
Proof.
  induction starts as [|i starts IH]; intros results H; cbn [outerLoop];
    [exact H|].
  destruct (nth_error text i) as [c|]; [|now apply IH].
  destruct (negb (isStartChar c)); apply IH; [exact H|].
  now apply innerLoop_keeps.
Qed.

(** The inner loop reaches every [j] before which no [break] fires, and
    records the span when it passes the test. *)
Lemma innerLoop_finds text minLength maxLength i j n : forall a results,
  (a <= j < a + n)%nat ->
  (forall j', (a <= j' <= j)%nat -> noBreak text maxLength i j') ->
  minLength <= canonLen text i j ->
  isPalindrome (normalizeHebrew (substring text i j)) = true ->
  In (matchOf text i j)
     (innerLoop text minLength maxLength i (seq a n) results).
Proof.
  induction n as [|n IH]; intros a results Hj Hnb Hmin Hpal; [lia|].
  cbn [seq innerLoop].
  destruct (Hnb a ltac:(lia)) as [Hraw Hcanon]. unfold canonLen in Hcanon.
  destruct (Z.gtb_spec (Z.of_nat (List.length (substring text i a)))
                       (maxLength * 4)) as [Hgt | _]; [lia|].
  destruct (Z.gtb_spec
              (Z.of_nat (List.length (normalizeHebrew (substring text i a))))
              maxLength) as [Hgt | _]; [lia|].
  destruct (Nat.eq_dec a j) as [-> | Hne].
  - rewrite Hpal, andb_true_r.
    destruct (Z.geb_spec
                (Z.of_nat (List.length (normalizeHebrew (substring text i j))))
                minLength) as [_ | Hlt]; [|unfold canonLen in Hmin; lia].
    apply innerLoop_keeps. apply in_or_app. right. now left.
  - assert (Hnb' : forall j', (S a <= j' <= j)%nat ->
                     noBreak text maxLength i j')
      by (intros j' Hj'; apply Hnb; lia).
    destruct (_ && _); apply IH; try assumption; lia.
Qed.

Lemma outerLoop_finds text minLength maxLength m i c :
  nth_error text i = Some c -> isStartChar c = true ->
  (forall results,
     In m (innerLoop text minLength maxLength i
             (seq (S i) (List.length text - i)) results)) ->
  forall starts results, In i starts ->
  In m (outerLoop text minLength maxLength starts results).
Proof.
  intros Hc Hstart Hinner.
  induction starts as [|i0 starts IH]; intros results Hin; [destruct Hin|].
  destruct Hin as [-> | Hin]; cbn [outerLoop].
  - rewrite Hc, Hstart. cbn [negb]. apply outerLoop_keeps, Hinner.
  - destruct (nth_error text i0) as [c0|]; [|now apply IH].
    destruct (negb (isStartChar c0)); now apply IH.
Qed.

Lemma scan_finds text minLength maxLength i j c :
  nth_error text i = Some c -> isStartChar c = true ->
  (i < j <= List.length text)%nat ->
  (forall j', (i < j' <= j)%nat -> noBreak text maxLength i j') ->
  minLength <= canonLen text i j ->
  isPalindrome (normalizeHebrew (substring text i j)) = true ->
  In (matchOf text i j) (scan text minLength maxLength).
Proof.
  intros Hc Hstart Hj Hnb Hmin Hpal. unfold scan.
  apply (outerLoop_finds text minLength maxLength _ i c Hc Hstart).
  - intro results. apply innerLoop_finds; try assumption; lia.
  - apply in_seq. lia.
Qed.

(** With an upper bound below the floor of the palindrome test, or below the
    lower bound, nothing is ever recorded. *)
Lemma innerLoop_nothing text minLength maxLength i js : forall results,
  minLength > maxLength \/ maxLength < 3 ->
  innerLoop text minLength maxLength i js results = results.
Proof.
  intros results Hbad. induction js as [|j js IH]; cbn [innerLoop];
    [reflexivity|].
  destruct (_ >? maxLength * 4); [reflexivity|].
  destruct (Z.gtb_spec
              (Z.of_nat (List.length (normalizeHebrew (substring text i j))))
              maxLength) as [Hgt | Hle]; [reflexivity|].
  destruct (_ && _) eqn:E; [|exact IH].
  apply andb_true_iff in E as [Hmin Hpal].
  apply Z.geb_le in Hmin. apply isPalindrome_true in Hpal as [_ Hlen]. lia.
Qed.

Lemma outerLoop_nothing text minLength maxLength starts : forall results,
  minLength > maxLength \/ maxLength < 3 ->
  outerLoop text minLength maxLength starts results = results.
Proof.
  intros results Hbad. induction starts as [|i starts IH]; cbn [outerLoop];
    [reflexivity|].
  destruct (nth_error text i) as [c|]; [|exact IH].
  destruct (negb (isStartChar c)); [exact IH|].
  now rewrite innerLoop_nothing.
Qed.

Lemma innerLoop_floor text minLength maxLength i js : forall results,
  minLength <= 3 ->
  innerLoop text minLength maxLength i js results
  = innerLoop text 3 maxLength i js results.
Proof.
  intros results Hmin. revert results.
  induction js as [|j js IH]; intro results; cbn [innerLoop]; [reflexivity|].
  rewrite (isPalindrome_floor _ minLength Hmin), !IH. reflexivity.
Qed.

Lemma outerLoop_floor text minLength maxLength starts : forall results,
  minLength <= 3 ->
  outerLoop text minLength maxLength starts results
  = outerLoop text 3 maxLength starts results.
Proof.
  intros results Hmin. revert results.
  induction starts as [|i starts IH]; intro results; cbn [outerLoop];
    [reflexivity|].
  rewrite (innerLoop_floor _ minLength _ _ _ _ Hmin), !IH. reflexivity.
Qed.

(** ** From the scan to the result *)

Lemma findPalindromes_from_scan text minLength maxLength m :
  In m (findPalindromes text minLength maxLength) ->
  In m (scan text minLength maxLength).
Proof.
  unfold findPalindromes. intro H.
  apply (proj1 (sort_In _ _)), dedup_sound in H.
  now apply (proj1 (sort_In _ _)) in H.
Qed.

Lemma findPalindromes_keeps_form text minLength maxLength r :
  In r (scan text minLength maxLength) ->
  exists m, In m (findPalindromes text minLength maxLength)
            /\ normalized m = normalized r.
Proof.
  intro H. apply (proj2 (sort_In _ _)), dedup_complete in H as (m & Hm & E).
  exists m. split; [|exact E]. unfold findPalindromes.
  now apply (proj2 (sort_In _ _)).
Qed.

Lemma findPalindromes_ok text minLength maxLength m :
  In m (findPalindromes text minLength maxLength) ->
  rawOk minLength maxLength m.
Proof.
  intro H. apply findPalindromes_from_scan in H.
  pose proof (scan_ok text minLength maxLength) as Hok.
  rewrite Forall_forall in Hok. now apply Hok.
Qed.

Lemma scan_lengthOk text minLength maxLength :
  Forall lengthOk (scan text minLength maxLength).
Proof.
  eapply Forall_impl; [|apply scan_ok]. intros m H. apply H.
Qed.

(** ** Spans *)

Lemma firstn_plus {A} (a b : nat) (l : list A) :
  firstn (a + b) l = firstn a l ++ firstn b (skipn a l).
Proof.
  revert l. induction a as [|a IH]; intros [|x l]; cbn [Nat.add firstn skipn app];
    try reflexivity.
  - now rewrite firstn_nil.
  - now rewrite IH.
Qed.

Lemma substring_le s i j :
  (i <= j)%nat -> substring s i j = firstn (j - i) (skipn i s).
Proof.
  intro H. unfold substring.
  now rewrite (Nat.max_r i j H), (Nat.min_l i j H).
Qed.

Lemma substring_split s i j j' :
  (i <= j <= j')%nat ->
  substring s i j' = substring s i j ++ substring s j j'.
Proof.
  intros [Hij Hjj']. rewrite !substring_le by lia.
  replace (j' - i)%nat with ((j - i) + (j' - j))%nat by lia.
  rewrite firstn_plus, skipn_skipn.
  now replace (j - i + i)%nat with j by lia.
Qed.

Lemma substring_length s i j :
  (i <= j <= List.length s)%nat ->
  List.length (substring s i j) = (j - i)%nat.
Proof.
  intro H. rewrite substring_le by lia.
  rewrite length_firstn, length_skipn. lia.
Qed.

Lemma substring_empty s i : substring s i i = [].
Proof. rewrite substring_le by lia. now rewrite Nat.sub_diag. Qed.

Lemma substring_one s : forall i c,
  nth_error s i = Some c -> substring s i (S i) = [c].
Proof.
  intros i c H. rewrite substring_le by lia.
  replace (S i - i)%nat with 1%nat by lia.
  revert i H. induction s as [|y s IH]; intros [|i] H; try discriminate H.
  - now injection H as ->.
  - cbn [skipn]. now apply IH.
Qed.

Lemma substring_cons s i j c :
  nth_error s i = Some c -> (i < j)%nat ->
  substring s i j = c :: substring s (S i) j.
Proof.
  intros Hc Hj. rewrite (substring_split s i (S i) j) by lia.
  now rewrite (substring_one s i c Hc).
Qed.

Lemma app_same_length {A} (a a' b b' : list A) :
  a ++ b = a' ++ b' -> List.length a = List.length a' ->
  a = a' /\ b = b'.
Proof.
  revert a'. induction a as [|x a IH]; intros [|x' a'] E Hlen;
    try discriminate Hlen.
  - now split.
  - injection E as -> E. injection Hlen as Hlen.
    destruct (IH a' E Hlen) as [-> ->]. now split.
Qed.

(** ** Every span the two aborts let through is represented *)

Lemma reached_span_represented text minLength maxLength : forall d i j,
  (j - i <= d)%nat ->
  (i < j <= List.length text)%nat ->
  (forall j', (i < j' <= j)%nat -> noBreak text maxLength i j') ->
  minLength <= canonLen text i j ->
  isPalindrome (normalizeHebrew (substring text i j)) = true ->
  exists m, In m (findPalindromes text minLength maxLength)
            /\ normalized m = normalizeHebrew (substring text i j).
Proof.
  induction d as [|d IH]; intros i j Hd Hj Hnb Hmin Hpal; [lia|].
  destruct (nth_error text i) as [c0|] eqn:Hc0;
    [|apply nth_error_None in Hc0; lia].
  destruct (isStartChar c0) eqn:Hstart.
  - apply (findPalindromes_keeps_form text minLength maxLength
             (matchOf text i j)).
    exact (scan_finds text minLength maxLength i j c0 Hc0 Hstart Hj Hnb
             Hmin Hpal).
  - destruct (head_skipped c0 (substring text (S i) j) Hstart)
      as (a & b & Eab & Hskip).
    assert (Hlen : (List.length a + List.length b = j - S i)%nat).
    { rewrite <- length_app, <- Eab. apply substring_length. lia. }
    set (i' := (S i + List.length a)%nat).
    assert (Hparts : substring text (S i) i' = a /\ substring text i' j = b).
    { apply app_same_length.
      - rewrite <- substring_split by (unfold i'; lia). now symmetry.
      - rewrite substring_length by (unfold i'; lia). unfold i'. lia. }
    destruct Hparts as [Ha Hb].
    assert (Hsame : forall j', (i' <= j' <= j)%nat ->
              normalizeHebrew (substring text i j')
              = normalizeHebrew (substring text i' j')).
    { intros j' Hj'.
      rewrite (substring_cons text i j' c0 Hc0) by (unfold i' in Hj'; lia).
      rewrite (substring_split text (S i) i' j') by (unfold i' in *; lia).
      rewrite Ha. apply (Hskip _ (substring text j' j)).
      rewrite <- Hb. apply substring_split. lia. }
    destruct (Nat.eq_dec i' j) as [Eij | Nij].
    + exfalso. rewrite (Hsame j) in Hpal by lia.
      rewrite <- Eij, substring_empty in Hpal. discriminate Hpal.
    + assert (Hi' : (i' < j)%nat) by (unfold i' in *; lia).
      rewrite (Hsame j) by lia.
      apply IH.
      * unfold i'. lia.
      * lia.
      * intros j' Hj'. destruct (Hnb j' ltac:(unfold i' in *; lia))
          as [Hraw Hcanon].
        unfold noBreak, canonLen in *.
        rewrite <- (Hsame j') by lia. split; [|exact Hcanon].
        rewrite substring_length in * by (unfold i' in *; lia).
        unfold i'. lia.
      * unfold canonLen in *. now rewrite <- (Hsame j) by lia.
      * now rewrite <- (Hsame j) by lia.
Qed.

(** Where no reference is stripped from the longer span, the canonical
    form of a span is a prefix of that of the longer one. *)
Lemma canonLen_le_noReference text i j j' :
  (i <= j <= j')%nat -> noReference (substring text i j') ->
  canonLen text i j <= canonLen text i j'.
Proof.
  intros Hj Href. unfold canonLen. rewrite !normalizeHebrew_passes.
  rewrite (substring_split text i j j' Hj) in Href |- *.
  rewrite (stripRefs_noReference _ Href).
  apply noReference_prefix in Href.
  rewrite (stripRefs_noReference _ Href).
  rewrite lettersOf_app, length_app. lia.
Qed.

(** ** Scenarios of the specification *)

(** Vowel points between the letters do not change the canonical form. *)
Example scenario_vowels :
  normalizeHebrew [alef; qamats; bet; qamats; alef] = [alef; bet; alef].
Proof. reflexivity. Qed.

(** A final kaf is folded to the regular kaf, which makes kaf-alef-final kaf
    a palindrome. *)
Example scenario_final_letter :
  findPalindromes [0x05DB; alef; finalKaf] 3 50
  = [mkMatch [0x05DB; alef; 0x05DB] [0x05DB; alef; finalKaf] 3].
Proof. reflexivity. Qed.

(** A reference between two letters is stripped before the letters are
    filtered: alef, then bet-comma-gimel in parentheses, then dalet and alef
    normalise to alef dalet alef. *)
Example scenario_reference :
  normalizeHebrew [alef; 0x28; bet; comma; gimel; 0x29; dalet; alef]
  = [alef; dalet; alef].
Proof. reflexivity. Qed.

(** The span with a trailing space and the span without it give one entry. *)
Example scenario_trimmed :
  scan [alef; bet; alef; space] 3 50
  = [mkMatch [alef; bet; alef] [alef; bet; alef] 3;
     mkMatch [alef; bet; alef] [alef; bet; alef] 3]
  /\ findPalindromes [alef; bet; alef; space] 3 50
     = [mkMatch [alef; bet; alef] [alef; bet; alef] 3].
Proof. split; reflexivity. Qed.

(** The exit on the canonical length can lose a span: the whole of alef bet
    gimel dalet he comma vav space alef has nine code units and normalises
    to alef bet alef, but with the range (3, 3) the scan from its first
    letter stops at the fourth code unit and nothing is returned. *)
Example early_exit_loses_a_span :
  Z.of_nat (List.length lateReference) <= 3 * 4
  /\ normalizeHebrew lateReference = [alef; bet; alef]
  /\ findPalindromes lateReference 3 3 = [].
Proof. repeat split. vm_compute. discriminate. Qed.

(** The empty text has no match. *)
Example scenario_empty : findPalindromes [] 3 50 = [].
Proof. reflexivity. Qed.

(** ** The earlier version, for comparison *)

Lemma earlier_normalizeHebrew_passes text :
  Earlier.normalizeHebrew text = lettersOf text.
Proof.
  unfold Earlier.normalizeHebrew, lettersOf.
  now rewrite loop_flat_map, codePoints_units, replace_niqqud.
Qed.

(** Without the reference patterns the canonical form of a span is a prefix
    of that of every extension of the span: this is what the abort on the
    canonical length was written for. *)
Lemma earlier_canonical_length_monotone text i j j' :
  (i <= j <= j')%nat ->
  (List.length (Earlier.normalizeHebrew (substring text i j))
   <= List.length (Earlier.normalizeHebrew (substring text i j')))%nat.
Proof.
  intro Hj. rewrite !earlier_normalizeHebrew_passes.
  rewrite (substring_split text i j j' Hj), lettersOf_app, length_app. lia.
Qed.

(** The earlier version keeps one entry for each pair of a canonical form
    and an original text, in the order of the scan; the later one keeps one
    entry for each canonical form, the longest first. *)
Example earlier_keeps_each_original :
  Earlier.findPalindromes [alef; bet; alef; bet; alef; qamats] 3 50
  = [mkMatch [alef; bet; alef] [alef; bet; alef] 3;
     mkMatch [alef; bet; alef; bet; alef] [alef; bet; alef; bet; alef] 5;
     mkMatch [bet; alef; bet] [bet; alef; bet] 3]
  /\ Earlier.findPalindromes [alef; bet; alef; space; alef; qamats; bet; alef]
                             3 3
     = [mkMatch [alef; bet; alef] [alef; bet; alef] 3;
        mkMatch [alef; bet; alef] [alef; qamats; bet; alef] 3]
  /\ findPalindromes [alef; bet; alef; space; alef; qamats; bet; alef] 3 3
     = [mkMatch [alef; bet; alef] [alef; bet; alef] 3].
Proof. repeat split; reflexivity. Qed.

(** * The claims *)




(** C2, as stated, fails: the reference pattern makes the canonical form
    depend on what follows.  In alef bet gimel dalet he comma vav space alef
    the span of the first four code units has canonical length 4, and the
    whole text, where the three letters before the comma and the one after
    are removed as a reference, has canonical length 3; with
    [minLength = maxLength = 3] the abort at the fourth code unit skips it. *)
Lemma C2_canonical_length_can_shrink :
  ~ nonDecreasing lateReference 0 /\ ~ abortSafe lateReference 3 3 0.
Proof.
  split; intro H.
  - specialize (H 4%nat 9%nat ltac:(lia) ltac:(simpl; lia)).
    vm_compute in H. apply H. reflexivity.
  - apply (H 4%nat 9%nat); [lia | simpl; lia | reflexivity |].
    split; vm_compute; discriminate.
Qed.

(** C2, amended: when neither reference pattern matches anywhere in the
    longer span [text[i..j']] (so that no reference is stripped from it), the
    canonical length of [text[i..j]] is at most that of [text[i..j']] for
    [j <= j'], and a span whose canonical length exceeds [maxLength] has no
    extension with a canonical length in [[minLength, maxLength]]. *)
Theorem C2_canonical_length_monotone_without_references
    (text : jsString) (i j j' : nat) :
  (i <= j <= j')%nat ->
  noReference (substring text i j') ->
  canonLen text i j <= canonLen text i j'
  /\ forall minLength maxLength,
       canonLen text i j > maxLength ->
       ~ (minLength <= canonLen text i j' <= maxLength).
Proof.
  intros Hj Hplain.
  assert (Hle : canonLen text i j <= canonLen text i j').
  { unfold canonLen. rewrite !normalizeHebrew_passes.
    rewrite (substring_split text i j j' Hj) in Hplain |- *.
    rewrite (stripRefs_noReference _ Hplain).
    apply noReference_prefix in Hplain.
    rewrite (stripRefs_noReference _ Hplain).
    rewrite lettersOf_app, length_app. lia. }
  split; [exact Hle | intros minLength maxLength Hgt; lia].
Qed.

(** The amended C2 at a text with a comma and brackets but no reference:
    alef, qamats, comma, space, bet, opening bracket, final kaf, closing
    bracket. *)
Lemma C2_monotone_witness :
  canonLen [alef; qamats; comma; space; bet; 0x5B; finalKaf; 0x5D] 0 3
  <= canonLen [alef; qamats; comma; space; bet; 0x5B; finalKaf; 0x5D] 0 8
  /\ forall minLength maxLength,
       canonLen [alef; qamats; comma; space; bet; 0x5B; finalKaf; 0x5D] 0 3
       > maxLength ->
       ~ (minLength
          <= canonLen [alef; qamats; comma; space; bet; 0x5B; finalKaf; 0x5D]
                      0 8
          <= maxLength).
Proof.
  apply (C2_canonical_length_monotone_without_references
           [alef; qamats; comma; space; bet; 0x5B; finalKaf; 0x5D] 0 3 8).
  - lia.
  - split; reflexivity.
Defined.

(** C3: [isPalindrome s] is true exactly when [s] reads the same forward and
    backward and has at least 3 elements; for a shorter [s] it is false
    whatever [s] holds. *)
Theorem C3_isPalindrome_iff_mirrored_and_long (s : jsString) :
  (isPalindrome s = true <-> mirrored s /\ (3 <= List.length s)%nat)
  /\ ((List.length s < 3)%nat -> isPalindrome s = false).
Proof.
  split; [apply isPalindrome_true|].
  intro H. destruct (isPalindrome s) eqn:E; [|reflexivity].
  apply isPalindrome_true in E. lia.
Qed.

(** C3 at alef bet alef and at alef alef. *)
Lemma C3_isPalindrome_witness :
  isPalindrome [alef; bet; alef] = true /\ isPalindrome [alef; alef] = false.
Proof.
  split.
  - apply (proj1 (C3_isPalindrome_iff_mirrored_and_long [alef; bet; alef])).
    split; [reflexivity | simpl; lia].
  - apply (proj2 (C3_isPalindrome_iff_mirrored_and_long [alef; alef])).
    simpl. lia.
Defined.

(** C4: every code unit of [normalizeHebrew text] is a base Hebrew letter:
    a letter of the alphabet that is no final form, no combining mark, no
    punctuation, no white space and no digit. *)
Theorem C4_normalizeHebrew_only_base_letters (text : jsString) :
  Forall (fun c => isBaseLetter c = true
                   /\ isNiqqud c = false
                   /\ isFinalLetter c = false
                   /\ isPunctuation c = false
                   /\ isWhiteSpace c = false
                   /\ isDigit c = false)
         (normalizeHebrew text).
Proof.
  rewrite normalizeHebrew_passes.
  eapply Forall_impl; [|apply lettersOf_base].
  intros c Hc. repeat split; try exact Hc; classes.
Qed.

(** C5: every match returned by [findPalindromes] has a [length] between
    [minLength] and [maxLength], equal to the length of its canonical form,
    and a canonical form that passes [isPalindrome]. *)
Theorem C5_matches_in_range_and_palindromic
    (text : jsString) (minLength maxLength : Z) (m : Match) :
  In m (findPalindromes text minLength maxLength) ->
  minLength <= length m <= maxLength
  /\ length m = Z.of_nat (List.length (normalized m))
  /\ isPalindrome (normalized m) = true.
Proof.
  intro H. apply findPalindromes_ok in H as (Hrange & Hlen & Hpal & _).
  now repeat split.
Qed.

(** C5 at the match found in space alef qamats bet alef space. *)
Lemma C5_matches_witness :
  3 <= length (mkMatch [alef; bet; alef] [alef; qamats; bet; alef] 3) <= 50
  /\ length (mkMatch [alef; bet; alef] [alef; qamats; bet; alef] 3)
     = Z.of_nat (List.length
         (normalized (mkMatch [alef; bet; alef] [alef; qamats; bet; alef] 3)))
  /\ isPalindrome
       (normalized (mkMatch [alef; bet; alef] [alef; qamats; bet; alef] 3))
     = true.
Proof.
  apply (C5_matches_in_range_and_palindromic
           [space; alef; qamats; bet; alef; space] 3 50).
  vm_compute. left. reflexivity.
Defined.

(** C6: no two matches of the result have the same canonical form; and for
    every canonical form, either the scan recorded no match of that form and
    the result has none, or the result has exactly one, which is the
    representative of the raw matches of that form: the first, in the order
    the scan met them, among those whose original text is shortest. *)
Theorem C6_one_shortest_first_representative
    (text : jsString) (minLength maxLength : Z) :
  NoDup (map normalized (findPalindromes text minLength maxLength))
  /\ forall k,
       (group k (scan text minLength maxLength) = []
        /\ group k (findPalindromes text minLength maxLength) = [])
       \/ exists m,
            group k (findPalindromes text minLength maxLength) = [m]
            /\ representative m (group k (scan text minLength maxLength)).
Proof.
  pose proof (scan_lengthOk text minLength maxLength) as Hlen.
  set (raw := scan text minLength maxLength) in *.
  destruct (dedup_inv (sort raw)) as (Hnd & Hkey & Hrep).
  assert (Hvals : Forall lengthOk (mapValues (dedup (sort raw)))).
  { rewrite Forall_forall in Hlen |- *. intros v Hv. apply Hlen.
    apply dedup_sound in Hv. now apply (proj1 (sort_In _ _)) in Hv. }
  unfold findPalindromes. fold raw. cbv zeta. split.
  - apply Permutation_NoDup
      with (l := map normalized (mapValues (dedup (sort raw)))).
    + apply Permutation_map. symmetry. apply sort_perm.
    + now rewrite values_keys.
  - intro k. rewrite (sort_group k _ Hvals).
    rewrite (group_values _ k Hnd Hkey).
    specialize (Hrep k). rewrite (sort_group k raw Hlen) in Hrep.
    destruct (mapGet (dedup (sort raw)) k) as [v|].
    + right. exists v. now split.
    + left. now split.
Qed.

(** C7: the result is in order of non-increasing [length]: an entry is at
    least as long as every entry that comes after it. *)
Theorem C7_result_sorted_by_length
    (text : jsString) (minLength maxLength : Z) (i j : nat) (a b : Match) :
  (i < j)%nat ->
  nth_error (findPalindromes text minLength maxLength) i = Some a ->
  nth_error (findPalindromes text minLength maxLength) j = Some b ->
  length b <= length a.
Proof.
  intros Hij Ha Hb.
  apply (StronglySorted_nth (findPalindromes text minLength maxLength)
           (sort_sorted _) i j a b Hij Ha Hb).
Qed.

(** C7 at the first two entries for alef bet alef bet alef. *)
Lemma C7_result_sorted_witness :
  length (mkMatch [alef; bet; alef] [alef; bet; alef] 3)
  <= length (mkMatch [alef; bet; alef; bet; alef]
                     [alef; bet; alef; bet; alef] 5).
Proof.
  apply (C7_result_sorted_by_length [alef; bet; alef; bet; alef] 3 50 0 1).
  - lia.
  - vm_compute. reflexivity.
  - vm_compute. reflexivity.
Defined.

(** C8, as stated, fails for [minLength <= 0] alone: with [minLength = 0]
    and [maxLength = 50] the text alef bet alef yields its match. *)
Lemma C8_nonpositive_minLength_not_empty :
  0 <= 0 /\ findPalindromes [alef; bet; alef] 0 50 <> [].
Proof.
  split; [lia|]. vm_compute. discriminate.
Qed.

(** C8, amended: if [minLength > maxLength] or [maxLength <= 0], the result
    is empty; if [minLength <= 0], the result is that of [minLength = 3]. *)
Theorem C8_malformed_range
    (text : jsString) (minLength maxLength : Z) :
  (minLength > maxLength \/ maxLength <= 0 ->
   findPalindromes text minLength maxLength = [])
  /\ (minLength <= 0 ->
      findPalindromes text minLength maxLength
      = findPalindromes text 3 maxLength).
Proof.
  split.
  - intro Hbad. unfold findPalindromes, scan.
    rewrite outerLoop_nothing by lia. reflexivity.
  - intro Hmin. unfold findPalindromes, scan.
    rewrite (outerLoop_floor text minLength) by lia. reflexivity.
Qed.

(** The amended C8 at the ranges (10, 5), (3, 0) and (-1, 50). *)
Lemma C8_malformed_range_witness :
  findPalindromes [alef; bet; alef] 10 5 = []
  /\ findPalindromes [alef; bet; alef] 3 0 = []
  /\ findPalindromes [alef; bet; alef] (-1) 50
     = findPalindromes [alef; bet; alef] 3 50.
Proof.
  split; [|split].
  - apply (proj1 (C8_malformed_range [alef; bet; alef] 10 5)). left. lia.
  - apply (proj1 (C8_malformed_range [alef; bet; alef] 3 0)). right. lia.
  - apply (proj2 (C8_malformed_range [alef; bet; alef] (-1) 50)). lia.
Defined.

(** C9: [normalizeHebrew] is idempotent: normalising its own output gives
    that output again. *)
Theorem C9_normalizeHebrew_idempotent (text : jsString) :
  normalizeHebrew (normalizeHebrew text) = normalizeHebrew text.
Proof.
  rewrite !normalizeHebrew_passes.
  pose proof (lettersOf_base (stripRefs text)) as Hbase.
  set (canon := lettersOf (stripRefs text)) in *.
  rewrite stripRefs_plain.
  - now apply lettersOf_fixed.
  - eapply Forall_impl; [|exact Hbase].
    intros c Hc. split; classes.
Qed.

(** C10: for every match of the result, normalising the stored original
    text, which is the trimmed span, gives the stored canonical form, which
    was computed from the span before trimming. *)
Theorem C10_original_normalises_to_canonical
    (text : jsString) (minLength maxLength : Z) (m : Match) :
  In m (findPalindromes text minLength maxLength) ->
  normalizeHebrew (original m) = normalized m.
Proof.
  intro H. now apply findPalindromes_ok in H as (_ & _ & _ & E).
Qed.

(** C10 at the match found in space alef qamats bet alef space. *)
Lemma C10_original_witness :
  normalizeHebrew
    (original (mkMatch [alef; bet; alef] [alef; qamats; bet; alef] 3))
  = normalized (mkMatch [alef; bet; alef] [alef; qamats; bet; alef] 3).
Proof.
  apply (C10_original_normalises_to_canonical
           [space; alef; qamats; bet; alef; space] 3 50).
  vm_compute. left. reflexivity.
Defined.

(** * Further properties of the later version *)

(** ** What the scan records *)

Lemma innerLoop_from text minLength maxLength i m n : forall a results,
  In m (innerLoop text minLength maxLength i (seq a n) results) ->
  In m results
  \/ exists j,
       (a <= j < a + n)%nat
       /\ (forall j', (a <= j' <= j)%nat -> noBreak text maxLength i j')
       /\ minLength <= canonLen text i j
       /\ isPalindrome (normalizeHebrew (substring text i j)) = true
       /\ m = matchOf text i j.
Proof.
  induction n as [|n IH]; intros a results; cbn [seq innerLoop];
    [now left|].
  destruct (Z.gtb_spec (Z.of_nat (List.length (substring text i a)))
                       (maxLength * 4)) as [_ | Hraw]; [now left|].
  destruct (Z.gtb_spec
              (Z.of_nat (List.length (normalizeHebrew (substring text i a))))
              maxLength) as [_ | Hcanon]; [now left|].
  assert (Hnb : forall j j', (S a <= j)%nat ->
            (forall j'', (S a <= j'' <= j)%nat ->
               noBreak text maxLength i j'') ->
            (a <= j' <= j)%nat -> noBreak text maxLength i j').
  { intros j j' Hj H Hj'. destruct (Nat.eq_dec j' a) as [-> | N].
    - now split.
    - apply H. lia. }
  destruct (_ && _) eqn:E; intro H; apply IH in H.
  - destruct H as [H | (j & Hj & Hall & Hmin & Hpal & ->)].
    + apply in_app_or in H as [H | [<- | []]]; [now left|].
      right. exists a. apply andb_true_iff in E as [Hmin Hpal].
      apply Z.geb_le in Hmin.
      split; [lia|]. split; [|now repeat split].
      intros j' Hj'. assert (j' = a) as -> by lia. now split.
    + right. exists j. split; [lia|]. split; [|now repeat split].
      intros j' Hj'. apply (Hnb j j'); [lia | exact Hall | exact Hj'].
  - destruct H as [H | (j & Hj & Hall & Hmin & Hpal & ->)]; [now left|].
    right. exists j. split; [lia|]. split; [|now repeat split].
    intros j' Hj'. apply (Hnb j j'); [lia | exact Hall | exact Hj'].
Qed.

Lemma outerLoop_from text minLength maxLength m starts : forall results,
  In m (outerLoop text minLength maxLength starts results) ->
  In m results
  \/ exists i j, reached text minLength maxLength i j /\ m = matchOf text i j.
Proof.
  induction starts as [|i starts IH]; intros results; cbn [outerLoop];
    [now left|].
  destruct (nth_error text i) as [c|] eqn:Hc; [|apply IH].
  destruct (isStartChar c) eqn:Hstart; cbn [negb]; [|apply IH].
  intro H. apply IH in H as [H | H]; [|now right].
  apply innerLoop_from in H as [H | (j & Hj & Hall & Hmin & Hpal & ->)];
    [now left|].
  right. exists i, j. split; [|reflexivity].
  assert (Hi : (i < List.length text)%nat)
    by (apply nth_error_Some; congruence).
  split; [now exists c|]. split; [lia|]. split; [|now split].
  intros j' Hj'. apply Hall. lia.
Qed.

Lemma scan_iff text minLength maxLength m :
  In m (scan text minLength maxLength)
  <-> exists i j,
        reached text minLength maxLength i j /\ m = matchOf text i j.
Proof.
  split.
  - intro H. apply outerLoop_from in H as [[] | H]. exact H.
  - intros (i & j & ((c & Hc & Hstart) & Hj & Hall & Hmin & Hpal) & ->).
    now apply (scan_finds text minLength maxLength i j c).
Qed.

(** ** Lengths *)

Lemma repeatMatcher_positive p k s : forall l h n,
  (1 <= l)%nat \/ (forall t m, k t = Some m -> (1 <= m)%nat) ->
  repeatMatcher p l h k s = Some n -> (1 <= n)%nat.
Proof.
  induction s as [|y s IH]; intros l h n Hpos; cbn [repeatMatcher].
  - destruct (Nat.eqb_spec l 0) as [-> | _]; [|discriminate].
    destruct Hpos as [Hl | Hk]; [lia | apply Hk].
  - destruct (canTake h && p y).
    + destruct (repeatMatcher p (Nat.pred l) (decr h) k s).
      * intros [= <-]. lia.
      * destruct (Nat.eqb_spec l 0) as [-> | _]; [|discriminate].
        destruct Hpos as [Hl | Hk]; [lia | apply Hk].
    + destruct (Nat.eqb_spec l 0) as [-> | _]; [|discriminate].
      destruct Hpos as [Hl | Hk]; [lia | apply Hk].
Qed.

Lemma matchAtoms_positive pat :
  Exists (fun a => (1 <= lo a)%nat) pat ->
  forall s n, matchAtoms pat s = Some n -> (1 <= n)%nat.
Proof.
  induction 1 as [a pat Hl | a pat _ IH]; intros s n; cbn [matchAtoms];
    apply repeatMatcher_positive; [now left | now right].
Qed.

(** A replacement by a space of matches that are never empty adds neither
    code units nor letters. *)
Lemma replaceFrom_counts pat s : forall skip,
  (forall t n, matchAtoms pat t = Some n -> (1 <= n)%nat) ->
  (List.length (replaceFrom pat [0x20%Z] skip s) <= List.length s)%nat
  /\ (letterCount (replaceFrom pat [0x20%Z] skip s) <= letterCount s)%nat.
Proof.
  intros skip Hpos. revert skip.
  induction s as [|y s IH]; intro skip; cbn [replaceFrom].
  - destruct skip; [|now split].
    destruct (matchAtoms pat []) as [n|] eqn:M; [|now split].
    pose proof (Hpos _ _ M). apply matchAtoms_length in M. simpl in M. lia.
  - destruct skip as [|k].
    + destruct (matchAtoms pat (y :: s)) as [[|n]|] eqn:M.
      * apply Hpos in M. lia.
      * destruct (IH n) as [H1 H2]. unfold letterCount in *.
        cbn [app List.length filter]. change (isHebrewLetter 32) with false.
        cbv iota. destruct (isHebrewLetter y); simpl; lia.
      * destruct (IH O) as [H1 H2]. unfold letterCount in *.
        cbn [List.length filter]. destruct (isHebrewLetter y); simpl; lia.
    + destruct (IH k) as [H1 H2]. unfold letterCount in *.
      cbn [List.length filter]. destruct (isHebrewLetter y); simpl; lia.
Qed.

Lemma lettersOf_count s : List.length (lettersOf s) = letterCount s.
Proof.
  unfold lettersOf, letterCount. induction s as [|c s IH]; [reflexivity|].
  cbn [filter]. destruct (isHebrewLetter c) eqn:Hl.
  - rewrite (letter_not_niqqud c Hl). cbn [negb flat_map List.length].
    rewrite length_app, IH.
    destruct (appended_unit c) as [E | (b & -> & _)]; [|reflexivity].
    exfalso. unfold appended, sofitMap in E. cbn [existsb] in E.
    rewrite Hl in E.
    repeat match type of E with
    | context [if ?x =? ?y then _ else _] =>
        destruct (x =? y); [discriminate E|]
    end.
    discriminate E.
  - destruct (isNiqqud c); cbn [negb flat_map]; [exact IH|].
    now rewrite (appended_nonletter c Hl).
Qed.

Lemma letterCount_length s : (letterCount s <= List.length s)%nat.
Proof. apply filter_length_le. Qed.

Lemma refPattern_positive s n :
  matchAtoms refPattern s = Some n -> (1 <= n)%nat.
Proof.
  apply matchAtoms_positive. apply Exists_cons_tl, Exists_cons_hd.
  simpl. lia.
Qed.

Lemma parenRefPattern_positive s n :
  matchAtoms parenRefPattern s = Some n -> (1 <= n)%nat.
Proof.
  apply matchAtoms_positive. apply Exists_cons_hd. simpl. lia.
Qed.

Lemma normalizeHebrew_count text :
  (List.length (normalizeHebrew text) <= letterCount text)%nat.
Proof.
  rewrite normalizeHebrew_passes, lettersOf_count. unfold stripRefs, replace.
  destruct (replaceFrom_counts refPattern text O refPattern_positive)
    as [_ H1].
  destruct (replaceFrom_counts parenRefPattern
              (replaceFrom refPattern [0x20] O text) O
              parenRefPattern_positive) as [_ H2].
  lia.
Qed.

Lemma letterCount_substring text i j :
  (letterCount (substring text i j) <= letterCount text)%nat.
Proof.
  unfold substring, letterCount.
  set (a := Nat.min i j). set (n := (Nat.max i j - a)%nat).
  rewrite <- (firstn_skipn a text) at 2.
  rewrite <- (firstn_skipn n (skipn a text)) at 2.
  rewrite !filter_app, !length_app. lia.
Qed.

(** ** [trim] again *)

Lemma trimStart_snoc l c :
  isWhiteSpace c = false -> exists l', trimStart (l ++ [c]) = l' ++ [c].
Proof.
  intro Hc. induction l as [|y l (l' & IH)]; cbn [app trimStart].
  - rewrite Hc. now exists [].
  - destruct (isWhiteSpace y); [now exists l' | now exists (y :: l)].
Qed.

Lemma trimStart_head s :
  trimStart s = []
  \/ exists y t, trimStart s = y :: t /\ isWhiteSpace y = false.
Proof.
  induction s as [|y s IH]; cbn [trimStart]; [now left|].
  destruct (isWhiteSpace y) eqn:Hy; [exact IH|]. right. now exists y, s.
Qed.

Lemma trim_length s : (List.length (trim s) <= List.length s)%nat.
Proof.
  destruct (trim_split s) as (ws1 & ws2 & _ & _ & E).
  rewrite E at 2. rewrite !length_app. lia.
Qed.

Lemma trim_of_span c rest :
  isWhiteSpace c = false ->
  (exists t, trim (c :: rest) = c :: t)
  /\ (exists body d, trim (c :: rest) = body ++ [d] /\ isWhiteSpace d = false).
Proof.
  intro Hc. unfold trim. cbn [trimStart]. rewrite Hc. unfold trimEnd.
  cbn [rev]. destruct (trimStart_snoc (rev rest) c Hc) as (l' & E).
  split.
  - exists (rev l'). now rewrite E, rev_app_distr.
  - destruct (trimStart_head (rev rest ++ [c])) as [E0 | (y & t & Ey & Hy)].
    + rewrite E in E0. now destruct l'.
    + rewrite Ey. cbn [rev]. now exists (rev t), y.
Qed.

(** ** Where matches come from *)

(** X1: every match of the result was recorded for a span [text[i..j]] that
    the scan reached: its canonical form is the normalised span, its
    original text the trimmed span, its length the canonical length. *)
Theorem X1_matches_come_from_spans
    (text : jsString) (minLength maxLength : Z) (m : Match) :
  In m (findPalindromes text minLength maxLength) ->
  exists i j,
    reached text minLength maxLength i j
    /\ normalized m = normalizeHebrew (substring text i j)
    /\ original m = trim (substring text i j)
    /\ length m = canonLen text i j.
Proof.
  intro H. apply findPalindromes_from_scan, scan_iff in H
    as (i & j & Hr & ->).
  exists i, j. split; [exact Hr|]. split; [|split]; reflexivity.
Qed.

(** X1 at the match of space alef qamats bet alef space. *)
Lemma X1_matches_come_from_spans_witness :
  exists i j,
    reached [space; alef; qamats; bet; alef; space] 3 50 i j
    /\ normalized (mkMatch [alef; bet; alef] [alef; qamats; bet; alef] 3)
       = normalizeHebrew
           (substring [space; alef; qamats; bet; alef; space] i j)
    /\ original (mkMatch [alef; bet; alef] [alef; qamats; bet; alef] 3)
       = trim (substring [space; alef; qamats; bet; alef; space] i j)
    /\ length (mkMatch [alef; bet; alef] [alef; qamats; bet; alef] 3)
       = canonLen [space; alef; qamats; bet; alef; space] i j.
Proof.
  apply (X1_matches_come_from_spans
           [space; alef; qamats; bet; alef; space] 3 50).
  vm_compute. left. reflexivity.
Defined.

(** X2: the original text of a match begins with a character of the start
    class, ends with a character that is no white space, and has at most
    four times [maxLength] code units. *)
Theorem X2_original_is_trimmed_and_bounded
    (text : jsString) (minLength maxLength : Z) (m : Match) :
  In m (findPalindromes text minLength maxLength) ->
  (exists c t, original m = c :: t /\ isStartChar c = true)
  /\ (exists body d, original m = body ++ [d] /\ isWhiteSpace d = false)
  /\ originalLength m <= maxLength * 4.
Proof.
  intro H. apply findPalindromes_from_scan, scan_iff in H
    as (i & j & ((c & Hc & Hstart) & Hj & Hall & _) & ->).
  unfold originalLength, matchOf. cbn [original].
  rewrite (substring_cons text i j c Hc) by lia.
  assert (Hws : isWhiteSpace c = false).
  { destruct (isWhiteSpace c) eqn:E; [|reflexivity].
    apply space_not_start in E. congruence. }
  destruct (trim_of_span c (substring text (S i) j) Hws)
    as [(t & Et) Hlast].
  split; [now exists c, t|]. split; [exact Hlast|].
  destruct (Hall j ltac:(lia)) as [Hraw _].
  rewrite (substring_cons text i j c Hc) in Hraw by lia.
  pose proof (trim_length (c :: substring text (S i) j)). lia.
Qed.

(** X2 at the match of space alef qamats bet alef space. *)
Lemma X2_original_is_trimmed_witness :
  (exists c t,
     original (mkMatch [alef; bet; alef] [alef; qamats; bet; alef] 3) = c :: t
     /\ isStartChar c = true)
  /\ (exists body d,
        original (mkMatch [alef; bet; alef] [alef; qamats; bet; alef] 3)
        = body ++ [d]
        /\ isWhiteSpace d = false)
  /\ originalLength (mkMatch [alef; bet; alef] [alef; qamats; bet; alef] 3)
     <= 50 * 4.
Proof.
  apply (X2_original_is_trimmed_and_bounded
           [space; alef; qamats; bet; alef; space] 3 50).
  vm_compute. left. reflexivity.
Defined.

(** X3: [normalizeHebrew] never lengthens: its output has at most as many
    code units as the text has Hebrew letters, hence at most as many as the
    text has code units. *)
Theorem X3_normalizeHebrew_not_longer (text : jsString) :
  (List.length (normalizeHebrew text) <= letterCount text)%nat
  /\ (List.length (normalizeHebrew text) <= List.length text)%nat.
Proof.
  pose proof (normalizeHebrew_count text).
  pose proof (letterCount_length text). lia.
Qed.

(** X4: the original text of a match is at least as long as its canonical
    form. *)
Theorem X4_canonical_not_longer_than_original
    (text : jsString) (minLength maxLength : Z) (m : Match) :
  In m (findPalindromes text minLength maxLength) ->
  length m <= originalLength m.
Proof.
  intro H. apply findPalindromes_ok in H as (_ & Hlen & _ & E).
  unfold lengthOk in Hlen. unfold originalLength. rewrite Hlen, <- E.
  pose proof (normalizeHebrew_count (original m)).
  pose proof (letterCount_length (original m)). lia.
Qed.

(** X4 at the match of space alef qamats bet alef space. *)
Lemma X4_canonical_not_longer_witness :
  length (mkMatch [alef; bet; alef] [alef; qamats; bet; alef] 3)
  <= originalLength (mkMatch [alef; bet; alef] [alef; qamats; bet; alef] 3).
Proof.
  apply (X4_canonical_not_longer_than_original
           [space; alef; qamats; bet; alef; space] 3 50).
  vm_compute. left. reflexivity.
Defined.

(** X5: a text with fewer than three Hebrew letters, or with fewer Hebrew
    letters than [minLength], has no match; in particular a text without
    Hebrew letters has none. *)
Theorem X5_few_letters_no_match
    (text : jsString) (minLength maxLength : Z) :
  (letterCount text < 3)%nat \/ Z.of_nat (letterCount text) < minLength ->
  findPalindromes text minLength maxLength = [].
Proof.
  intro Hfew.
  assert (Hscan : scan text minLength maxLength = []).
  { destruct (scan text minLength maxLength) as [|m l] eqn:E;
      [reflexivity|].
    exfalso.
    assert (Hm : In m (scan text minLength maxLength))
      by (rewrite E; now left).
    apply scan_iff in Hm as (i & j & (_ & _ & _ & Hmin & Hpal) & _).
    apply isPalindrome_true in Hpal as [_ Hlen]. unfold canonLen in Hmin.
    pose proof (normalizeHebrew_count (substring text i j)).
    pose proof (letterCount_substring text i j). lia. }
  unfold findPalindromes. rewrite Hscan. reflexivity.
Qed.

(** X5 at a text with two letters, with digits and with marks. *)
Lemma X5_few_letters_witness :
  findPalindromes [alef; 0x31; qamats; bet; comma; 0x32; space] 3 50 = []
  /\ findPalindromes [alef; bet; alef] 4 50 = [].
Proof.
  split.
  - apply X5_few_letters_no_match. left. vm_compute. lia.
  - apply X5_few_letters_no_match. right. vm_compute. reflexivity.
Defined.

(** X6: a wider range loses no canonical form: what is found between
    [minLength] and [maxLength] is found between any [minLength' <=
    minLength] and [maxLength' >= maxLength]. *)
Theorem X6_wider_range_keeps_forms
    (text : jsString) (minLength maxLength minLength' maxLength' : Z)
    (m : Match) :
  minLength' <= minLength -> maxLength <= maxLength' ->
  In m (findPalindromes text minLength maxLength) ->
  exists m', In m' (findPalindromes text minLength' maxLength')
             /\ normalized m' = normalized m.
Proof.
  intros Hmin Hmax H.
  apply findPalindromes_from_scan, scan_iff in H
    as (i & j & (Hc & Hj & Hall & Hlo & Hpal) & ->).
  apply (findPalindromes_keeps_form text minLength' maxLength'
           (matchOf text i j)).
  apply scan_iff. exists i, j. split; [|reflexivity].
  split; [exact Hc|]. split; [exact Hj|]. split; [|split; [lia | exact Hpal]].
  intros j' Hj'. destruct (Hall j' Hj') as [Hraw Hcanon].
  split; lia.
Qed.

(** X6 from the range (3, 3) to the range (1, 50). *)
Lemma X6_wider_range_witness :
  exists m', In m' (findPalindromes [alef; bet; alef; bet; alef] 1 50)
             /\ normalized m'
                = normalized (mkMatch [alef; bet; alef] [alef; bet; alef] 3).
Proof.
  apply (X6_wider_range_keeps_forms [alef; bet; alef; bet; alef] 3 3 1 50).
  - lia.
  - lia.
  - vm_compute. left. reflexivity.
Defined.

(** X7: the floor of the palindrome test: every [minLength] up to 3 gives
    the result of [minLength = 3], and every [maxLength] below 3 gives the
    empty result. *)
Theorem X7_floor_of_three (text : jsString) (minLength maxLength : Z) :
  (minLength <= 3 ->
   findPalindromes text minLength maxLength
   = findPalindromes text 3 maxLength)
  /\ (maxLength < 3 -> findPalindromes text minLength maxLength = []).
Proof.
  split; intro H; unfold findPalindromes, scan.
  - rewrite (outerLoop_floor text minLength) by lia. reflexivity.
  - rewrite outerLoop_nothing by lia. reflexivity.
Qed.

(** X7 at the ranges (2, 50) and (1, 2). *)
Lemma X7_floor_of_three_witness :
  findPalindromes [alef; alef; bet; alef] 2 50
  = findPalindromes [alef; alef; bet; alef] 3 50
  /\ findPalindromes [alef; alef; bet; alef] 1 2 = [].
Proof.
  split.
  - apply (proj1 (X7_floor_of_three [alef; alef; bet; alef] 2 50)). lia.
  - apply (proj2 (X7_floor_of_three [alef; alef; bet; alef] 1 2)). lia.
Defined.

(** ** Final letters in the input *)

Lemma foldFinal_final c :
  isFinalLetter c = true ->
  c = 0x05DA \/ c = 0x05DD \/ c = 0x05DF \/ c = 0x05E3 \/ c = 0x05E5.
Proof. classes. Qed.

Lemma foldFinal_other c : isFinalLetter c = false -> foldFinal c = c.
Proof.
  intro H. unfold foldFinal, sofitMap.
  assert ((c =? 0x05DA) = false) as -> by classes.
  assert ((c =? 0x05DD) = false) as -> by classes.
  assert ((c =? 0x05DF) = false) as -> by classes.
  assert ((c =? 0x05E3) = false) as -> by classes.
  assert ((c =? 0x05E5) = false) as -> by classes.
  reflexivity.
Qed.

Ltac by_final_letter c :=
  destruct (isFinalLetter c) eqn:Hfinal;
  [ apply foldFinal_final in Hfinal;
    destruct Hfinal as [-> | [-> | [-> | [-> | ->]]]]; reflexivity
  | now rewrite (foldFinal_other c Hfinal) ].

Lemma foldFinal_letter c : isHebrewLetter (foldFinal c) = isHebrewLetter c.
Proof. by_final_letter c. Qed.

Lemma foldFinal_niqqud c : isNiqqud (foldFinal c) = isNiqqud c.
Proof. by_final_letter c. Qed.

Lemma foldFinal_openQuote c : isOpenQuote (foldFinal c) = isOpenQuote c.
Proof. by_final_letter c. Qed.

Lemma foldFinal_closeQuote c : isCloseQuote (foldFinal c) = isCloseQuote c.
Proof. by_final_letter c. Qed.

Lemma foldFinal_sep c : isRefSep (foldFinal c) = isRefSep c.
Proof. by_final_letter c. Qed.

Lemma foldFinal_openBracket c :
  isOpenBracket (foldFinal c) = isOpenBracket c.
Proof. by_final_letter c. Qed.

Lemma foldFinal_closeBracket c :
  isCloseBracket (foldFinal c) = isCloseBracket c.
Proof. by_final_letter c. Qed.

Lemma foldFinal_space c : isWhiteSpace (foldFinal c) = isWhiteSpace c.
Proof. by_final_letter c. Qed.

Lemma foldFinal_start c : isStartChar (foldFinal c) = isStartChar c.
Proof. by_final_letter c. Qed.

Lemma foldFinal_appended c : appended [foldFinal c] = appended [c].
Proof. by_final_letter c. Qed.

Section MapInput.

Variable f : codeUnit -> codeUnit.

Lemma repeatMatcher_map p k k' s : forall l h,
  (forall c, p (f c) = p c) ->
  (forall t, k (map f t) = k' t) ->
  repeatMatcher p l h k (map f s) = repeatMatcher p l h k' s.
Proof.
  intros l h Hp Hk. revert l h.
  induction s as [|y s IH]; intros l h; cbn [map repeatMatcher].
  - now rewrite <- (Hk []).
  - rewrite Hp, IH. now rewrite <- (Hk (y :: s)).
Qed.

Lemma matchAtoms_map pat :
  Forall (fun a => forall c, cls a (f c) = cls a c) pat ->
  forall s, matchAtoms pat (map f s) = matchAtoms pat s.
Proof.
  induction 1 as [|a pat Ha _ IH]; intro s; cbn [matchAtoms];
    [reflexivity|].
  now apply repeatMatcher_map.
Qed.

Lemma replaceFrom_map pat by_ :
  Forall (fun a => forall c, cls a (f c) = cls a c) pat ->
  forall s skip,
    replaceFrom pat (map f by_) skip (map f s)
    = map f (replaceFrom pat by_ skip s).
Proof.
  intro Hpat. induction s as [|y s IH]; intro skip.
  - cbn [map replaceFrom]. destruct skip; [|reflexivity].
    now destruct (matchAtoms pat []).
  - destruct skip as [|k]; cbn [map replaceFrom]; [|apply IH].
    pose proof (matchAtoms_map pat Hpat (y :: s)) as M. cbn [map] in M.
    rewrite M.
    destruct (matchAtoms pat (y :: s)) as [[|n]|].
    + rewrite map_app. cbn [map]. now rewrite IH.
    + rewrite map_app. now rewrite IH.
    + cbn [map]. now rewrite IH.
Qed.

End MapInput.

Lemma stripRefs_foldFinal s :
  stripRefs (map foldFinal s) = map foldFinal (stripRefs s).
Proof.
  unfold stripRefs, replace.
  change [0x20] with (map foldFinal [0x20]).
  rewrite !replaceFrom_map; [reflexivity | |].
  - unfold parenRefPattern.
    repeat constructor; intro c; cbn [one plus upTo3 cls];
      auto using foldFinal_openBracket, foldFinal_letter, foldFinal_space,
        foldFinal_closeBracket.
  - unfold refPattern.
    repeat constructor; intro c; cbn [one opt upTo3 cls];
      auto using foldFinal_openQuote, foldFinal_letter, foldFinal_sep,
        foldFinal_closeQuote.
Qed.

Lemma lettersOf_foldFinal s : lettersOf (map foldFinal s) = lettersOf s.
Proof.
  unfold lettersOf. induction s as [|c s IH]; [reflexivity|].
  cbn [map filter]. rewrite foldFinal_niqqud.
  destruct (isNiqqud c); cbn [negb flat_map]; [exact IH|].
  now rewrite foldFinal_appended, IH.
Qed.

(** X8: final letters and their regular forms are interchangeable in the
    input: writing every final letter of a text in its regular form does not
    change what the text normalises to. *)
Theorem X8_final_letters_interchangeable (text : jsString) :
  normalizeHebrew (map foldFinal text) = normalizeHebrew text.
Proof.
  rewrite !normalizeHebrew_passes, stripRefs_foldFinal.
  apply lettersOf_foldFinal.
Qed.

(** ** Texts without references *)

Lemma noMatchIn_tail pat y s :
  noMatchIn pat (y :: s) = true -> noMatchIn pat s = true.
Proof.
  cbn [noMatchIn]. now destruct (matchAtoms pat (y :: s)).
Qed.

Lemma noMatchIn_skipn pat n : forall s,
  noMatchIn pat s = true -> noMatchIn pat (skipn n s) = true.
Proof.
  induction n as [|n IH]; intros [|y s] H; cbn [skipn]; try exact H.
  apply IH. now apply noMatchIn_tail in H.
Qed.

Lemma noReference_substring text i j :
  (i <= j)%nat -> noReference text -> noReference (substring text i j).
Proof.
  intros Hj [H1 H2]. rewrite substring_le by exact Hj.
  apply (noReference_prefix _ (skipn (j - i) (skipn i text))).
  rewrite firstn_skipn. split; now apply noMatchIn_skipn.
Qed.

(** X9: in a text where neither reference pattern matches anywhere, only
    the bound on the raw length limits the scan: every span of at most four
    times [maxLength] code units whose canonical form is a palindrome with a
    length between [minLength] and [maxLength] has a match of that canonical
    form in the result. *)
Theorem X9_complete_without_references
    (text : jsString) (minLength maxLength : Z) (i j : nat) :
  noReference text ->
  (i < j <= List.length text)%nat ->
  Z.of_nat (List.length (substring text i j)) <= maxLength * 4 ->
  minLength <= canonLen text i j <= maxLength ->
  isPalindrome (normalizeHebrew (substring text i j)) = true ->
  exists m, In m (findPalindromes text minLength maxLength)
            /\ normalized m = normalizeHebrew (substring text i j).
Proof.
  intros Href Hj Hraw Hrange Hpal.
  apply (reached_span_represented text minLength maxLength (j - i) i j);
    try assumption; try lia.
  intros j' Hj'. split.
  - rewrite substring_length in * by lia. lia.
  - pose proof (canonLen_le_noReference text i j' j ltac:(lia)
                  (noReference_substring text i j ltac:(lia) Href)).
    lia.
Qed.

(** X9 at the span bet alef bet of the text alef, comma, space, bet, qamats,
    alef, two spaces, bet, alef. *)
Lemma X9_complete_without_references_witness :
  exists m,
    In m (findPalindromes
            [alef; comma; space; bet; qamats; alef; space; space; bet; alef]
            3 3)
    /\ normalized m
       = normalizeHebrew
           (substring
              [alef; comma; space; bet; qamats; alef; space; space; bet; alef]
              2 9).
Proof.
  apply (X9_complete_without_references
           [alef; comma; space; bet; qamats; alef; space; space; bet; alef]
           3 3 2 9).
  - split; reflexivity.
  - simpl. lia.
  - vm_compute. discriminate.
  - split; vm_compute; discriminate.
  - reflexivity.
Defined.

(** * Properties of the earlier version *)

(** ** The earlier scan *)

Lemma earlier_canonLen_le text i j j' :
  (i <= j <= j')%nat -> earlierCanonLen text i j <= earlierCanonLen text i j'.
Proof.
  intro Hj. unfold earlierCanonLen.
  pose proof (earlier_canonical_length_monotone text i j j' Hj). lia.
Qed.

Lemma earlier_innerLoop_keeps text minLength maxLength i m js :
  forall results,
  In m results ->
  In m (Earlier.innerLoop text minLength maxLength i js results).
Proof.
  induction js as [|j js IH]; intros results H; cbn [Earlier.innerLoop];
    [exact H|].
  destruct (_ >? maxLength); [exact H|].
  destruct (_ && _); [|now apply IH].
  destruct (Earlier.lastChar (substring text i j)) as [y|]; [|now apply IH].
  destruct (isHebrewLetter y); apply IH; [|exact H].
  apply in_or_app. now left.
Qed.

Lemma earlier_outerLoop_keeps text minLength maxLength m starts :
  forall results,
  In m results ->
  In m (Earlier.outerLoop text minLength maxLength starts results).
Proof.
  induction starts as [|i starts IH]; intros results H;
    cbn [Earlier.outerLoop]; [exact H|].
  destruct (nth_error text i) as [c|]; [|now apply IH].
  destruct (negb (isHebrewLetter c)); apply IH; [exact H|].
  now apply earlier_innerLoop_keeps.
Qed.

Lemma earlier_innerLoop_finds text minLength maxLength i j n :
  forall a results,
  (a <= j < a + n)%nat ->
  (forall j', (a <= j' <= j)%nat -> earlierCanonLen text i j' <= maxLength) ->
  minLength <= earlierCanonLen text i j ->
  isPalindrome (Earlier.normalizeHebrew (substring text i j)) = true ->
  (exists y, Earlier.lastChar (substring text i j) = Some y
             /\ isHebrewLetter y = true) ->
  In (earlierMatchOf text i j)
     (Earlier.innerLoop text minLength maxLength i (seq a n) results).
Proof.
  induction n as [|n IH]; intros a results Hj Hmax Hmin Hpal Hlast; [lia|].
  cbn [seq Earlier.innerLoop].
  pose proof (Hmax a ltac:(lia)) as Ha. unfold earlierCanonLen in Ha.
  destruct (Z.gtb_spec
              (Z.of_nat (List.length
                 (Earlier.normalizeHebrew (substring text i a))))
              maxLength) as [Hgt | _]; [lia|].
  destruct (Nat.eq_dec a j) as [-> | Hne].
  - rewrite Hpal, andb_true_r.
    destruct (Z.geb_spec
                (Z.of_nat (List.length
                   (Earlier.normalizeHebrew (substring text i j))))
                minLength) as [_ | Hlt];
      [|unfold earlierCanonLen in Hmin; lia].
    destruct Hlast as (y & -> & ->).
    apply earlier_innerLoop_keeps. apply in_or_app. right. now left.
  - assert (Hmax' : forall j', (S a <= j' <= j)%nat ->
                      earlierCanonLen text i j' <= maxLength)
      by (intros j' Hj'; apply Hmax; lia).
    destruct (_ && _);
      [destruct (Earlier.lastChar (substring text i a)) as [y|];
       [destruct (isHebrewLetter y)|]|];
      apply IH; try assumption; lia.
Qed.

Lemma earlier_innerLoop_from text minLength maxLength i m n :
  forall a results,
  In m (Earlier.innerLoop text minLength maxLength i (seq a n) results) ->
  In m results
  \/ exists j,
       (a <= j < a + n)%nat
       /\ minLength <= earlierCanonLen text i j <= maxLength
       /\ isPalindrome (Earlier.normalizeHebrew (substring text i j)) = true
       /\ (exists y, Earlier.lastChar (substring text i j) = Some y
                     /\ isHebrewLetter y = true)
       /\ m = earlierMatchOf text i j.
Proof.
  induction n as [|n IH]; intros a results; cbn [seq Earlier.innerLoop];
    [now left|].
  destruct (Z.gtb_spec
              (Z.of_nat (List.length
                 (Earlier.normalizeHebrew (substring text i a))))
              maxLength) as [_ | Hcanon]; [now left|].
  assert (Hlater : forall results',
            In m (Earlier.innerLoop text minLength maxLength i
                    (seq (S a) n) results') ->
            In m results'
            \/ exists j,
                 (a <= j < a + S n)%nat
                 /\ minLength <= earlierCanonLen text i j <= maxLength
                 /\ isPalindrome
                      (Earlier.normalizeHebrew (substring text i j)) = true
                 /\ (exists y, Earlier.lastChar (substring text i j) = Some y
                               /\ isHebrewLetter y = true)
                 /\ m = earlierMatchOf text i j).
  { intros results' H. apply IH in H as [H | (j & Hj & H)]; [now left|].
    right. exists j. split; [lia | exact H]. }
  destruct (_ && _) eqn:E; [|apply Hlater].
  destruct (Earlier.lastChar (substring text i a)) as [y|] eqn:Hy;
    [|apply Hlater].
  destruct (isHebrewLetter y) eqn:Hl; [|apply Hlater].
  intro H. apply Hlater in H as [H | H]; [|now right].
  apply in_app_or in H as [H | [<- | []]]; [now left|].
  right. exists a. apply andb_true_iff in E as [Hmin Hpal].
  apply Z.geb_le in Hmin. unfold earlierCanonLen.
  split; [lia|]. split; [lia|]. split; [exact Hpal|].
  split; [now exists y | reflexivity].
Qed.

Lemma earlierScan_iff text minLength maxLength m :
  In m (earlierScan text minLength maxLength)
  <-> exists i j,
        earlierReached text minLength maxLength i j
        /\ m = earlierMatchOf text i j.
Proof.
  unfold earlierScan. split.
  - assert (H : forall starts results,
              In m (Earlier.outerLoop text minLength maxLength starts results)
              -> In m results
                 \/ exists i j,
                      earlierReached text minLength maxLength i j
                      /\ m = earlierMatchOf text i j).
    { induction starts as [|i starts IH]; intros results;
        cbn [Earlier.outerLoop]; [now left|].
      destruct (nth_error text i) as [c|] eqn:Hc; [|apply IH].
      destruct (isHebrewLetter c) eqn:Hl; cbn [negb]; [|apply IH].
      intro H. apply IH in H as [H | H]; [|now right].
      apply earlier_innerLoop_from in H
        as [H | (j & Hj & Hr & Hpal & Hlast & ->)]; [now left|].
      right. exists i, j. split; [|reflexivity].
      assert (Hi : (i < List.length text)%nat)
        by (apply nth_error_Some; congruence).
      split; [now exists c|]. split; [lia|]. now repeat split. }
    intro Hm. apply H in Hm as [[] | Hm]. exact Hm.
  - intros (i & j & ((c & Hc & Hl) & Hj & Hr & Hpal & Hlast) & ->).
    assert (H : forall starts results, In i starts ->
              In (earlierMatchOf text i j)
                 (Earlier.outerLoop text minLength maxLength starts results)).
    { induction starts as [|i0 starts IH]; intros results Hin;
        [destruct Hin|].
      destruct Hin as [-> | Hin]; cbn [Earlier.outerLoop].
      - rewrite Hc, Hl. cbn [negb]. apply earlier_outerLoop_keeps.
        apply earlier_innerLoop_finds; try assumption; try lia.
        intros j' Hj'.
        pose proof (earlier_canonLen_le text i j' j ltac:(lia)). lia.
      - destruct (nth_error text i0) as [c0|]; [|now apply IH].
        destruct (negb (isHebrewLetter c0)); now apply IH. }
    apply H. apply in_seq. lia.
Qed.

(** ** The earlier deduplication *)

Lemma earlier_dedupStep_inv m l x :
  earlierInv m l -> earlierInv (Earlier.dedupStep m x) (l ++ [x]).
Proof.
  intros (Hnd & Hkey & Hall). unfold Earlier.dedupStep, mapHas.
  destruct (mapGet m (Earlier.keyOf x)) as [v|] eqn:G; cbn [negb].
  - split; [exact Hnd|]. split.
    + intros k w Hin. destruct (Hkey k w Hin) as [-> Hw].
      split; [reflexivity | apply in_or_app; now left].
    + intros r Hr. apply in_app_or in Hr as [Hr | [<- | []]].
      * now apply Hall.
      * now rewrite G.
  - split; [|split].
    + rewrite mapSet_keys. unfold mapHas. rewrite G.
      apply NoDup_app_remove_l with (l := []). cbn [app].
      apply Permutation_NoDup with (l := Earlier.keyOf x :: map fst m).
      * apply Permutation_cons_append.
      * constructor; [|exact Hnd]. now apply mapGet_None.
    + intros k w Hin. apply mapSet_In in Hin as [[-> ->] | Hin].
      * split; [reflexivity | apply in_or_app; right; now left].
      * destruct (Hkey k w Hin) as [-> Hw].
        split; [reflexivity | apply in_or_app; now left].
    + intros r Hr.
      destruct (list_eq_dec Z.eq_dec (Earlier.keyOf r) (Earlier.keyOf x))
        as [E | N].
      * rewrite E, mapSet_same. discriminate.
      * rewrite (mapSet_other _ _ _ _ N).
        apply in_app_or in Hr as [Hr | [<- | []]]; [now apply Hall|].
        congruence.
Qed.

Lemma earlier_dedup_inv l : earlierInv (fold_left Earlier.dedupStep l []) l.
Proof.
  enough (H : forall l m l0, earlierInv m l0 ->
            earlierInv (fold_left Earlier.dedupStep l m) (l0 ++ l))
    by (apply (H l [] []); split; [constructor|];
        split; [intros k v [] | intros r []]).
  clear l. induction l as [|x l IH]; intros m l0 H; cbn [fold_left].
  - now rewrite app_nil_r.
  - replace (l0 ++ x :: l) with ((l0 ++ [x]) ++ l)
      by now rewrite <- app_assoc.
    apply IH. now apply earlier_dedupStep_inv.
Qed.

Lemma earlier_result_from_scan text minLength maxLength m :
  In m (Earlier.findPalindromes text minLength maxLength) ->
  In m (earlierScan text minLength maxLength).
Proof.
  unfold Earlier.findPalindromes, mapValues.
  fold (earlierScan text minLength maxLength).
  destruct (earlier_dedup_inv (earlierScan text minLength maxLength))
    as (_ & Hkey & _).
  rewrite in_map_iff. intros ([k v] & <- & Hin). now apply Hkey in Hin.
Qed.

Lemma earlier_result_keeps_key text minLength maxLength r :
  In r (earlierScan text minLength maxLength) ->
  exists m, In m (Earlier.findPalindromes text minLength maxLength)
            /\ Earlier.keyOf m = Earlier.keyOf r.
Proof.
  intro Hr. unfold Earlier.findPalindromes, mapValues.
  fold (earlierScan text minLength maxLength).
  destruct (earlier_dedup_inv (earlierScan text minLength maxLength))
    as (_ & Hkey & Hall).
  specialize (Hall r Hr).
  destruct (mapGet _ (Earlier.keyOf r)) as [v|] eqn:G; [|congruence].
  apply mapGet_In in G. exists v. split.
  - now apply (in_map snd) in G.
  - symmetry. now apply Hkey in G.
Qed.

(** The low line that separates the two parts of a key is the first one of
    the key, since a canonical form holds letters only. *)
Lemma key_parts (a a' b b' : jsString) :
  Forall (fun c => isBaseLetter c = true) a ->
  Forall (fun c => isBaseLetter c = true) a' ->
  a ++ [0x5F] ++ b = a' ++ [0x5F] ++ b' -> a = a' /\ b = b'.
Proof.
  intros Ha. revert a'.
  induction Ha as [|x a Hx _ IH]; intros a' Ha' E;
    destruct Ha' as [|x' a' Hx' Ha']; cbn [app] in E.
  - injection E as E. now split.
  - injection E as E _. subst x'. discriminate Hx'.
  - injection E as E _. subst x. discriminate Hx.
  - injection E as -> E. destruct (IH a' Ha' E) as [-> ->]. now split.
Qed.

Lemma lastChar_snoc s y :
  Earlier.lastChar s = Some y <-> exists t, s = t ++ [y].
Proof.
  unfold Earlier.lastChar. split.
  - intro H. destruct (exists_last (l := s)) as (t & y' & ->).
    { intros ->. discriminate H. }
    rewrite length_app in H. cbn [List.length] in H.
    rewrite nth_error_app2 in H by lia.
    replace (List.length t + 1 - 1 - List.length t)%nat with O in H by lia.
    injection H as ->. now exists t.
  - intros (t & ->). rewrite length_app. cbn [List.length].
    rewrite nth_error_app2 by lia.
    now replace (List.length t + 1 - 1 - List.length t)%nat with O by lia.
Qed.

(** ** What the earlier version returns *)

(** X10: every match of the earlier version has a length between
    [minLength] and [maxLength] that is the length of its canonical form, a
    canonical form that passes [isPalindrome] and is the normalisation of
    its original text, and an original text that is a span of the input
    beginning and ending with a Hebrew letter. *)
Theorem X10_earlier_matches_are_sound
    (text : jsString) (minLength maxLength : Z) (m : Match) :
  In m (Earlier.findPalindromes text minLength maxLength) ->
  minLength <= length m <= maxLength
  /\ length m = Z.of_nat (List.length (normalized m))
  /\ isPalindrome (normalized m) = true
  /\ Earlier.normalizeHebrew (original m) = normalized m
  /\ (exists i j, (i < j <= List.length text)%nat
                  /\ original m = substring text i j)
  /\ (exists c t, original m = c :: t /\ isHebrewLetter c = true)
  /\ (exists t y, original m = t ++ [y] /\ isHebrewLetter y = true).
Proof.
  intro H. apply earlier_result_from_scan, earlierScan_iff in H
    as (i & j & ((c & Hc & Hl) & Hj & Hr & Hpal & (y & Hy & Hly)) & ->).
  unfold earlierMatchOf, earlierCanonLen in *.
  cbn [normalized original length].
  split; [exact Hr|]. split; [reflexivity|]. split; [exact Hpal|].
  split; [reflexivity|]. split; [now exists i, j|]. split.
  - exists c, (substring text (S i) j). split; [|exact Hl].
    apply substring_cons; [exact Hc | lia].
  - apply lastChar_snoc in Hy as (t & Ht). now exists t, y.
Qed.

(** X10 at the match of alef qamats bet alef in a text that ends with a
    space. *)
Lemma X10_earlier_matches_witness :
  3 <= length (mkMatch [alef; bet; alef] [alef; qamats; bet; alef] 3) <= 50
  /\ length (mkMatch [alef; bet; alef] [alef; qamats; bet; alef] 3)
     = Z.of_nat (List.length
         (normalized (mkMatch [alef; bet; alef] [alef; qamats; bet; alef] 3)))
  /\ isPalindrome
       (normalized (mkMatch [alef; bet; alef] [alef; qamats; bet; alef] 3))
     = true
  /\ Earlier.normalizeHebrew
       (original (mkMatch [alef; bet; alef] [alef; qamats; bet; alef] 3))
     = normalized (mkMatch [alef; bet; alef] [alef; qamats; bet; alef] 3)
  /\ (exists i j,
        (i < j <= List.length [space; alef; qamats; bet; alef; space])%nat
        /\ original (mkMatch [alef; bet; alef] [alef; qamats; bet; alef] 3)
           = substring [space; alef; qamats; bet; alef; space] i j)
  /\ (exists c t,
        original (mkMatch [alef; bet; alef] [alef; qamats; bet; alef] 3)
        = c :: t
        /\ isHebrewLetter c = true)
  /\ (exists t y,
        original (mkMatch [alef; bet; alef] [alef; qamats; bet; alef] 3)
        = t ++ [y]
        /\ isHebrewLetter y = true).
Proof.
  apply (X10_earlier_matches_are_sound
           [space; alef; qamats; bet; alef; space] 3 50).
  vm_compute. left. reflexivity.
Defined.

(** X11: in the result of the earlier version no two entries have both the
    same canonical form and the same original text. *)
Theorem X11_earlier_entries_distinct
    (text : jsString) (minLength maxLength : Z) :
  NoDup (map (fun m => (normalized m, original m))
             (Earlier.findPalindromes text minLength maxLength)).
Proof.
  unfold Earlier.findPalindromes. fold (earlierScan text minLength maxLength).
  destruct (earlier_dedup_inv (earlierScan text minLength maxLength))
    as (Hnd & Hkey & _).
  set (M := fold_left Earlier.dedupStep _ _) in *.
  apply (NoDup_map_inv
           (fun p : jsString * jsString => fst p ++ [0x5F] ++ snd p)).
  rewrite map_map. unfold mapValues. rewrite map_map.
  replace (map _ M) with (map fst M); [exact Hnd|].
  apply map_ext_in. intros [k v] Hin. cbn [fst snd].
  now apply Hkey in Hin.
Qed.

(** ** The earlier normaliser *)

Lemma appended_rev c : rev (appended [c]) = appended [c].
Proof.
  destruct (appended_unit c) as [-> | (b & -> & _)]; reflexivity.
Qed.

Lemma lettersOf_rev s : lettersOf (rev s) = rev (lettersOf s).
Proof.
  unfold lettersOf. rewrite filter_rev.
  induction (filter (fun c => negb (isNiqqud c)) s) as [|c l IH];
    [reflexivity|].
  cbn [rev flat_map]. rewrite flat_map_app, IH, rev_app_distr.
  cbn [flat_map]. now rewrite app_nil_r, appended_rev.
Qed.

(** X12: the earlier normaliser works code unit by code unit: the canonical
    form of a concatenation is the concatenation of the canonical forms, and
    the canonical form of a reversed text is the reversed canonical form. *)
Theorem X12_earlier_normalizeHebrew_is_local (a b : jsString) :
  Earlier.normalizeHebrew (a ++ b)
  = Earlier.normalizeHebrew a ++ Earlier.normalizeHebrew b
  /\ Earlier.normalizeHebrew (rev a) = rev (Earlier.normalizeHebrew a).
Proof.
  rewrite !earlier_normalizeHebrew_passes. split.
  - apply lettersOf_app.
  - apply lettersOf_rev.
Qed.

(** X13: on a text where neither reference pattern matches anywhere, the
    later and the earlier normaliser agree. *)
Theorem X13_versions_agree_without_references (text : jsString) :
  noReference text -> normalizeHebrew text = Earlier.normalizeHebrew text.
Proof.
  intro H.
  rewrite normalizeHebrew_passes, earlier_normalizeHebrew_passes.
  now rewrite stripRefs_noReference.
Qed.

(** X13 at a text with a comma and brackets but no reference. *)
Lemma X13_versions_agree_witness :
  normalizeHebrew [alef; qamats; comma; space; bet; 0x5B; finalKaf; 0x5D]
  = Earlier.normalizeHebrew
      [alef; qamats; comma; space; bet; 0x5B; finalKaf; 0x5D].
Proof.
  apply X13_versions_agree_without_references. split; reflexivity.
Defined.

(** ** Completeness of the earlier version *)

Lemma first_letter s :
  lettersOf s <> [] ->
  exists a x t,
    s = a ++ x :: t /\ isHebrewLetter x = true
    /\ lettersOf (x :: t) = lettersOf s.
Proof.
  induction s as [|y s IH]; intro H; [now contradiction H|].
  destruct (isHebrewLetter y) eqn:Hy.
  - now exists [], y, s.
  - rewrite (lettersOf_nonletter y s Hy) in H |- *.
    destruct (IH H) as (a & x & t & -> & Hx & E).
    now exists (y :: a), x, t.
Qed.

(** A span with letters has a core that begins and ends with a letter and
    has the same letters. *)
Lemma letters_core s :
  lettersOf s <> [] ->
  exists a core c,
    s = a ++ core ++ c
    /\ lettersOf core = lettersOf s
    /\ (exists x t, core = x :: t /\ isHebrewLetter x = true)
    /\ (exists t y, core = t ++ [y] /\ isHebrewLetter y = true).
Proof.
  intro H. destruct (first_letter s H) as (a & x & t & -> & Hx & E).
  assert (Hrev : lettersOf (rev (x :: t)) <> []).
  { rewrite lettersOf_rev, E. intro N. apply H.
    apply (f_equal (@rev codeUnit)) in N.
    now rewrite rev_involutive in N. }
  destruct (first_letter _ Hrev) as (c & y & t' & Erev & Hy & E').
  assert (Ecore : x :: t = (rev t' ++ [y]) ++ rev c).
  { rewrite <- (rev_involutive (x :: t)), Erev, rev_app_distr.
    reflexivity. }
  exists a, (rev t' ++ [y]), (rev c). split; [now rewrite Ecore|].
  split; [|split].
  - rewrite <- E.
    change (rev t' ++ [y]) with (rev (y :: t')).
    rewrite lettersOf_rev, E', lettersOf_rev. apply rev_involutive.
  - destruct (rev t') as [|z l]; cbn [app] in Ecore |- *;
      injection Ecore as Ex _.
    + now exists y, [].
    + exists z, (l ++ [y]). split; [reflexivity | now rewrite <- Ex].
  - now exists (rev t'), y.
Qed.

Lemma substring_head s i j x t :
  (i < j)%nat -> substring s i j = x :: t -> nth_error s i = Some x.
Proof.
  intros Hj E. rewrite substring_le in E by lia.
  rewrite <- hd_error_skipn.
  destruct (skipn i s) as [|z l]; [now rewrite firstn_nil in E|].
  destruct (j - i)%nat eqn:D; [lia|]. cbn [firstn] in E.
  now injection E as -> _.
Qed.

Lemma earlierScan_normalized text minLength maxLength m :
  In m (earlierScan text minLength maxLength) ->
  Forall (fun c => isBaseLetter c = true) (normalized m).
Proof.
  intro H. apply earlierScan_iff in H as (i & j & _ & ->).
  unfold earlierMatchOf. cbn [normalized].
  rewrite earlier_normalizeHebrew_passes. apply lettersOf_base.
Qed.

Lemma earlier_span_represented
    (text : jsString) (minLength maxLength : Z) (i j : nat) :
  (i < j <= List.length text)%nat ->
  isPalindrome (Earlier.normalizeHebrew (substring text i j)) = true ->
  minLength <= earlierCanonLen text i j <= maxLength ->
  exists m, In m (Earlier.findPalindromes text minLength maxLength)
            /\ normalized m = Earlier.normalizeHebrew (substring text i j).
Proof.
  intros Hj Hpal Hrange. unfold earlierCanonLen in Hrange.
  rewrite earlier_normalizeHebrew_passes in *.
  assert (Hne : lettersOf (substring text i j) <> []).
  { intro N. rewrite N in Hpal. discriminate Hpal. }
  destruct (letters_core _ Hne)
    as (a & core & c & Es & Ecore & (x & t & Ex & Hx) & (t' & y & Ey & Hy)).
  assert (Hlen : (List.length a + (List.length core + List.length c)
                  = j - i)%nat).
  { rewrite <- !length_app, <- Es. apply substring_length. lia. }
  assert (Hcore : (1 <= List.length core)%nat) by (rewrite Ex; simpl; lia).
  set (i' := (i + List.length a)%nat).
  set (j' := (i' + List.length core)%nat).
  assert (E1 : substring text i i' = a /\ substring text i' j = core ++ c).
  { apply app_same_length.
    - rewrite <- substring_split by (unfold i'; lia). now symmetry.
    - rewrite substring_length by (unfold i'; lia). unfold i'. lia. }
  destruct E1 as [_ E1].
  assert (E2 : substring text i' j' = core /\ substring text j' j = c).
  { apply app_same_length.
    - rewrite <- substring_split by (unfold j', i'; lia). exact E1.
    - rewrite substring_length by (unfold j', i'; lia). unfold j'. lia. }
  destruct E2 as [E2 _].
  assert (Hreached : earlierReached text minLength maxLength i' j').
  { unfold earlierReached, earlierCanonLen.
    rewrite earlier_normalizeHebrew_passes, E2, Ecore.
    split; [|split; [unfold j', i'; lia|]].
    - exists x. split; [|exact Hx].
      apply (substring_head text i' j' x t); [unfold j'; lia|].
      now rewrite E2.
    - split; [exact Hrange|]. split; [exact Hpal|].
      exists y. split; [|exact Hy]. apply lastChar_snoc. now exists t'. }
  assert (Hin : In (earlierMatchOf text i' j')
                   (earlierScan text minLength maxLength))
    by (apply earlierScan_iff; now exists i', j').
  destruct (earlier_result_keeps_key text minLength maxLength _ Hin)
    as (m & Hm & Ekey).
  exists m. split; [exact Hm|].
  apply key_parts in Ekey as [En _].
  - rewrite En. unfold earlierMatchOf. cbn [normalized].
    now rewrite earlier_normalizeHebrew_passes, E2.
  - apply (earlierScan_normalized text minLength maxLength).
    now apply earlier_result_from_scan.
  - now apply (earlierScan_normalized text minLength maxLength).
Qed.

(** X14: the earlier version leaves out no canonical form: every span of
    the text whose canonical form is a palindrome with a length between
    [minLength] and [maxLength] has a match of that canonical form in the
    result. *)
Theorem X14_earlier_every_span_is_represented
    (text : jsString) (minLength maxLength : Z) (i j : nat) :
  (i < j <= List.length text)%nat ->
  isPalindrome (Earlier.normalizeHebrew (substring text i j)) = true ->
  minLength <= earlierCanonLen text i j <= maxLength ->
  exists m, In m (Earlier.findPalindromes text minLength maxLength)
            /\ normalized m = Earlier.normalizeHebrew (substring text i j).
Proof.
  apply earlier_span_represented.
Qed.

(** X14 at the span that C1 loses in the later version: an alef, eleven
    spaces, bet and alef, with the range (3, 3). *)
Lemma X14_earlier_every_span_witness :
  exists m, In m (Earlier.findPalindromes longGap 3 3)
            /\ normalized m
               = Earlier.normalizeHebrew (substring longGap 0 14).
Proof.
  apply (X14_earlier_every_span_is_represented longGap 3 3 0 14).
  - vm_compute. lia.
  - reflexivity.
  - split; vm_compute; discriminate.
Defined.

(** ** The earlier version and the letters of the text *)

Lemma lettersOf_letters s : lettersOf (filter isHebrewLetter s) = lettersOf s.
Proof.
  induction s as [|c s IH]; [reflexivity|].
  cbn [filter]. destruct (isHebrewLetter c) eqn:Hc.
  - change (c :: filter isHebrewLetter s)
      with ([c] ++ filter isHebrewLetter s).
    change (c :: s) with ([c] ++ s).
    now rewrite !lettersOf_app, IH.
  - now rewrite (lettersOf_nonletter c s Hc).
Qed.

(** X17: the canonical form of the earlier version depends on the Hebrew
    letters of the text only: vowel points, spaces, punctuation and any
    other code units can be removed or added without changing it. *)
Theorem X17_earlier_normalizeHebrew_reads_letters_only
    (text text' : jsString) :
  filter isHebrewLetter text = filter isHebrewLetter text' ->
  Earlier.normalizeHebrew text = Earlier.normalizeHebrew text'.
Proof.
  intro H. rewrite !earlier_normalizeHebrew_passes.
  rewrite <- (lettersOf_letters text), <- (lettersOf_letters text').
  now rewrite H.
Qed.

(** X17 at a word with vowel points and commas and the bare word. *)
Lemma X17_earlier_reads_letters_witness :
  Earlier.normalizeHebrew [alef; qamats; bet; comma; finalKaf; comma; space]
  = Earlier.normalizeHebrew [alef; bet; finalKaf].
Proof.
  apply X17_earlier_normalizeHebrew_reads_letters_only. reflexivity.
Defined.

(** X18: on a text where neither reference pattern matches anywhere, every
    canonical form that the later version reports is reported by the
    earlier version for the same range. *)
Theorem X18_later_forms_among_earlier_without_references
    (text : jsString) (minLength maxLength : Z) (m : Match) :
  noReference text ->
  In m (findPalindromes text minLength maxLength) ->
  exists m', In m' (Earlier.findPalindromes text minLength maxLength)
             /\ normalized m' = normalized m.
Proof.
  intros Href H.
  apply findPalindromes_from_scan, scan_iff in H
    as (i & j & (_ & Hj & Hall & Hmin & Hpal) & ->).
  destruct (Hall j ltac:(lia)) as [_ Hmax].
  assert (E : normalizeHebrew (substring text i j)
              = Earlier.normalizeHebrew (substring text i j)).
  { rewrite normalizeHebrew_passes, earlier_normalizeHebrew_passes.
    rewrite stripRefs_noReference; [reflexivity|].
    apply noReference_substring; [lia | exact Href]. }
  unfold matchOf. cbn [normalized]. unfold canonLen in *. rewrite E in *.
  now apply earlier_span_represented.
Qed.

(** X18 at the match of space alef qamats bet alef space. *)
Lemma X18_later_forms_among_earlier_witness :
  exists m',
    In m' (Earlier.findPalindromes [space; alef; qamats; bet; alef; space]
             3 50)
    /\ normalized m'
       = normalized (mkMatch [alef; bet; alef] [alef; qamats; bet; alef] 3).
Proof.
  apply (X18_later_forms_among_earlier_without_references
           [space; alef; qamats; bet; alef; space] 3 50).
  - split; reflexivity.
  - vm_compute. left. reflexivity.
Defined.

(** * Properties of the search of [App.tsx] *)

Lemma trim_spaces s : Forall isSpace s -> trim s = [].
Proof.
  intro H. unfold trim.
  assert (E : trimStart s = []).
  { induction H as [|c s Hc _ IH]; [reflexivity|].
    cbn [trimStart]. unfold isSpace in Hc. now rewrite Hc. }
  now rewrite E.
Qed.

(** X15: a search on an input that is empty or all white space, as it is
    after [clearAll], changes nothing: results, tab and input stay as they
    are. *)
Theorem X15_blank_search_changes_nothing
    (D : Type) (st : App.State D) :
  Forall isSpace (App.inputText st) ->
  App.handleSearch st = st
  /\ App.handleSearch (App.clearAll st) = App.clearAll st.
Proof.
  intro H. split.
  - unfold App.handleSearch. now rewrite (trim_spaces _ H).
  - reflexivity.
Qed.

(** X15 at a state whose input is two spaces and which shows one result. *)
Lemma X15_blank_search_witness :
  App.handleSearch blankState = blankState
  /\ App.handleSearch (App.clearAll blankState) = App.clearAll blankState.
Proof.
  apply (X15_blank_search_changes_nothing unit blankState).
  repeat constructor.
Defined.

(** X16: after a search on an input that is not blank, the search tab is
    shown, the input and the discoveries are as before, and every result
    shown has no source, is not being looked up, has between 3 and 60
    letters, and has a palindrome as canonical form, which its original text
    normalises to. *)
Theorem X16_search_shows_fresh_palindromes
    (D : Type) (st : App.State D) :
  trim (App.inputText st) <> [] ->
  App.activeTab (App.handleSearch st) = App.search
  /\ App.inputText (App.handleSearch st) = App.inputText st
  /\ App.aiDiscoveries (App.handleSearch st) = App.aiDiscoveries st
  /\ forall r, In r (App.results (App.handleSearch st)) ->
       App.source r = None
       /\ App.isCheckingSource r = Some false
       /\ 3 <= App.length r <= 60
       /\ isPalindrome (App.normalized r) = true
       /\ normalizeHebrew (App.original r) = App.normalized r.
Proof.
  intro H. unfold App.handleSearch.
  destruct (trim (App.inputText st)) as [|c t]; [now contradiction H|].
  cbn [App.activeTab App.inputText App.aiDiscoveries App.results].
  split; [reflexivity|]. split; [reflexivity|]. split; [reflexivity|].
  intros r Hr. apply in_map_iff in Hr as ([n o l] & <- & Hin).
  apply findPalindromes_ok in Hin as (Hrange & _ & Hpal & E).
  cbn [normalized original length] in *.
  cbn [App.unchecked App.source App.isCheckingSource App.length
       App.normalized App.original].
  now repeat split.
Qed.

(** X16 at a state whose input is alef bet alef and which shows nothing. *)
Lemma X16_search_shows_witness :
  App.activeTab (App.handleSearch typedState) = App.search
  /\ App.inputText (App.handleSearch typedState) = App.inputText typedState
  /\ App.aiDiscoveries (App.handleSearch typedState)
     = App.aiDiscoveries typedState
  /\ forall r, In r (App.results (App.handleSearch typedState)) ->
       App.source r = None
       /\ App.isCheckingSource r = Some false
       /\ 3 <= App.length r <= 60
       /\ isPalindrome (App.normalized r) = true
       /\ normalizeHebrew (App.original r) = App.normalized r.
Proof.
  apply (X16_search_shows_fresh_palindromes unit typedState).
  vm_compute. discriminate.
Defined.
